(** * Text-prompting protocol examples: envelopes, handlers and streaming

    A shallow embedding of the two notebooks of the repository,
    [examples/prompting.ipynb] (class [Prompting] with its [prompt],
    [blacklist] and [priority] functions) and [examples/streaming.ipynb]
    (class [StreamPrompting], the streaming handler [prompt] with its
    inner coroutine [_prompt], [blacklist] and [priority]).

    Python objects are mutated in place, so every method is a computation
    in a state-and-exception monad whose state is the object; the state
    survives a raised exception, as the object does in Python. *)

From Stdlib Require Import NArith PrimFloat Strings.Byte.
From stdpp Require Import base tactics option list numbers strings.

Set Default Proof Using "Type".
Local Open Scope N_scope.

(** ** Python values used by the notebooks *)

Module Py.

(** A Python [str] is a sequence of Unicode code points. *)
Abbreviation codepoint := N (only parsing).
Abbreviation str := (list codepoint) (only parsing).

(** A Python [bytes] object. *)
Abbreviation bytes := (list Byte.byte) (only parsing).

(** String literals of the notebooks are ASCII. *)
Definition lit (s : String.string) : str :=
  map Ascii.N_of_ascii (String.list_ascii_of_string s).

Definition newline : codepoint := 10.

(** The exceptions that the modelled code can raise. *)
Inductive exn :=
| IndexError
| TypeError
| ValidationError
| UnicodeDecodeError
| UnicodeEncodeError.

Inductive result (A : Type) :=
| Ok (a : A)
| Raise (e : exn).
Arguments Ok {A} a.
Arguments Raise {A} e.

(** [M S A]: a computation on a mutable object of type [S] that returns
    an [A] or raises. *)
Definition M (S A : Type) : Type := S -> S * result A.

Definition ret {S A} (a : A) : M S A := fun s => (s, Ok a).
Definition raise {S A} (e : exn) : M S A := fun s => (s, Raise e).
Definition bind {S A B} (c : M S A) (k : A -> M S B) : M S B :=
  fun s =>
    match c s with
    | (s', Ok a) => k a s'
    | (s', Raise e) => (s', Raise e)
    end.
Definition get {S} : M S S := fun s => (s, Ok s).
Definition modify {S} (f : S -> S) : M S unit := fun s => (f s, Ok tt).
Definition lift {S A} (e : exn) (o : option A) : M S A :=
  match o with
  | Some a => ret a
  | None => raise e
  end.

Definition exec {S A} (c : M S A) (s : S) : S := fst (c s).
Definition outcome {S A} (c : M S A) (s : S) : result A := snd (c s).

(** [for x in l: body x] *)
Fixpoint for_each {S A} (l : list A) (body : A -> M S unit) : M S unit :=
  match l with
  | [] => ret tt
  | x :: l' => bind (body x) (fun _ => for_each l' body)
  end.

(** *** [str.split(sep)] for a one-character separator

    The result always has at least one piece; adjacent separators give
    empty pieces. *)
Fixpoint split (sep : codepoint) (s : str) : list str :=
  match s with
  | [] => [[]]
  | c :: s' =>
      if c =? sep then [] :: split sep s'
      else match split sep s' with
           | piece :: pieces => (c :: piece) :: pieces
           | [] => [[c]]
           end
  end.

(** [sep.join(l)] with the empty separator. *)
Definition join (l : list str) : str := concat l.

(** Truth value of a [str] or of a list: non-empty. *)
Definition truthy {A} (l : list A) : bool :=
  match l with
  | [] => false
  | _ :: _ => true
  end.

(** *** The UTF-8 codec in strict mode *)

Definition between (lo hi n : N) : bool := (lo <=? n) && (n <=? hi).
Definition byte_of (n : N) : Byte.byte :=
  default Byte.x00 (Byte.of_N n).

(** Continuation byte [10xxxxxx]: its six payload bits. *)
Definition payload (b : Byte.byte) : N := N.land (Byte.to_N b) 63.

(** [bytes.decode('utf-8')]: [None] stands for [UnicodeDecodeError].
    Overlong forms, surrogates, values above U+10FFFF and truncated
    sequences are rejected. *)
Fixpoint utf8_decode (bs : bytes) : option str :=
  match bs with
  | [] => Some []
  | b0 :: bs1 =>
      let n0 := Byte.to_N b0 in
      if n0 <? 128 then
        cons n0 <$> utf8_decode bs1
      else if between 194 223 n0 then
        match bs1 with
        | b1 :: bs2 =>
            if between 128 191 (Byte.to_N b1) then
              cons (N.shiftl (N.land n0 31) 6 + payload b1)
                <$> utf8_decode bs2
            else None
        | _ => None
        end
      else if between 224 239 n0 then
        match bs1 with
        | b1 :: b2 :: bs3 =>
            let lo := if n0 =? 224 then 160 else 128 in
            let hi := if n0 =? 237 then 159 else 191 in
            if between lo hi (Byte.to_N b1)
               && between 128 191 (Byte.to_N b2) then
              cons (N.shiftl (N.land n0 15) 12
                    + N.shiftl (payload b1) 6 + payload b2)
                <$> utf8_decode bs3
            else None
        | _ => None
        end
      else if between 240 244 n0 then
        match bs1 with
        | b1 :: b2 :: b3 :: bs4 =>
            let lo := if n0 =? 240 then 144 else 128 in
            let hi := if n0 =? 244 then 143 else 191 in
            if between lo hi (Byte.to_N b1)
               && between 128 191 (Byte.to_N b2)
               && between 128 191 (Byte.to_N b3) then
              cons (N.shiftl (N.land n0 7) 18
                    + N.shiftl (payload b1) 12
                    + N.shiftl (payload b2) 6 + payload b3)
                <$> utf8_decode bs4
            else None
        | _ => None
        end
      else None
  end.

Definition tail_byte (n : N) : Byte.byte := byte_of (128 + N.land n 63).

(** The bytes of one code point; [None] for a surrogate or a value that
    is not a code point. *)
Definition utf8_encode_char (c : codepoint) : option bytes :=
  if c <? 128 then Some [byte_of c]
  else if c <? 2048 then
    Some [byte_of (192 + N.shiftr c 6); tail_byte c]
  else if between 55296 57343 c then None
  else if c <? 65536 then
    Some [byte_of (224 + N.shiftr c 12); tail_byte (N.shiftr c 6);
          tail_byte c]
  else if c <? 1114112 then
    Some [byte_of (240 + N.shiftr c 18); tail_byte (N.shiftr c 12);
          tail_byte (N.shiftr c 6); tail_byte c]
  else None.

(** [str.encode("utf-8")]: [None] stands for [UnicodeEncodeError]. *)
Fixpoint utf8_encode (s : str) : option bytes :=
  match s with
  | [] => Some []
  | c :: s' =>
      match utf8_encode_char c, utf8_encode s' with
      | Some bs, Some rest => Some (bs ++ rest)
      | _, _ => None
      end
  end.

End Py.

Declare Scope py_scope.
Delimit Scope py_scope with py.
Notation "x <- c1 ;; c2" := (Py.bind c1 (fun x => c2))
  (at level 100, c1 at next level, right associativity) : py_scope.
Notation "c1 ;; c2" := (Py.bind c1 (fun _ => c2))
  (at level 100, right associativity) : py_scope.

(** ** The part of pydantic (v1) that the two classes rely on *)

Module Pydantic.
Import Py.

(** [class Config]: the setting that decides whether assignments are
    checked. *)
Record Config := { validate_assignment : bool }.

(** [pydantic.Field(default, ..., allow_mutation=...)]. The default
    [...] marks a required field: [default = None]. Titles and
    descriptions carry no behaviour. *)
Record FieldInfo (A : Type) :=
  { default : option A; allow_mutation : bool }.
Arguments default {A} _.
Arguments allow_mutation {A} _.

(** One keyword argument of [__init__]: the supplied value, else the
    default, else a validation error for a required field. *)
Definition init_field {A} (info : FieldInfo A) (arg : option A)
  : result A :=
  match arg, default info with
  | Some v, _ => Ok v
  | None, Some d => Ok d
  | None, None => Raise ValidationError
  end.

(** [BaseModel.__setattr__] on a declared field. With
    [validate_assignment] a field declared [allow_mutation=False]
    refuses the assignment with a [TypeError] and a value of the wrong
    type ([valid = false]) with a [ValidationError]; without it the
    value is stored unchecked. *)
Definition setattr {T A} (cfg : Config) (info : FieldInfo A)
    (valid : bool) (store : T -> T) : M T unit :=
  fun self =>
    if validate_assignment cfg then
      if negb (allow_mutation info) then (self, Raise TypeError)
      else if negb valid then (self, Raise ValidationError)
      else (store self, Ok tt)
    else (store self, Ok tt).

End Pydantic.

(** ** [examples/prompting.ipynb] *)

Module PromptingNb.
Import Py Pydantic.
Local Open Scope py_scope.

(** [class Prompting(bt.Synapse)]. Assignments are validated, so
    [completion] always holds a [str]. *)
Record Prompting :=
  { roles : list str; messages : list str; completion : str }.

(** [class Config: validate_assignment = True] *)
Definition Config : Pydantic.Config := {| validate_assignment := true |}.

Definition roles_field : FieldInfo (list str) :=
  {| default := None; allow_mutation := false |}.
Definition messages_field : FieldInfo (list str) :=
  {| default := None; allow_mutation := false |}.
Definition completion_field : FieldInfo str :=
  {| default := Some []; allow_mutation := true |}.

(** [Prompting(roles=..., messages=..., completion=...)]; an argument
    that is not supplied is [None]. *)
Definition __init__ (roles_arg messages_arg : option (list str))
    (completion_arg : option str) : result Prompting :=
  match init_field roles_field roles_arg,
        init_field messages_field messages_arg,
        init_field completion_field completion_arg with
  | Ok r, Ok m, Ok c =>
      Ok {| roles := r; messages := m; completion := c |}
  | _, _, _ => Raise ValidationError
  end.

(** [self.roles = v], [self.messages = v], [self.completion = v] *)
Definition set_roles (v : list str) : M Prompting unit :=
  setattr Config roles_field true
    (fun self => {| roles := v; messages := messages self;
                    completion := completion self |}).
Definition set_messages (v : list str) : M Prompting unit :=
  setattr Config messages_field true
    (fun self => {| roles := roles self; messages := v;
                    completion := completion self |}).
Definition set_completion (v : str) : M Prompting unit :=
  setattr Config completion_field true
    (fun self => {| roles := roles self; messages := messages self;
                    completion := v |}).

Definition deserialize : M Prompting str :=
  self <- get ;; ret (completion self).

(** The body of the property [required_hash_fields] as the class
    writes it. *)
Definition required_hash_fields_property : M Prompting (list string) :=
  ret ["messages"%string].

(** Reading [self.required_hash_fields]. The base class [bt.Synapse] is
    not part of the repository; [inherited] is the value of a pydantic
    field of this name that it declares, [None] when it declares none.
    pydantic (v1) keeps a class attribute whose name is a field out of
    the class it builds, so under an inherited field the property above
    is dropped and the read gives the value of the field. *)
Definition required_hash_fields (inherited : option (list string))
  : M Prompting (list string) :=
  match inherited with
  | Some value => ret value
  | None => required_hash_fields_property
  end.

(** The handler; it returns the object it was given. *)
Definition prompt : M Prompting Prompting :=
  set_completion (lit "I am a chatbot") ;;
  get.

Definition blacklist : M Prompting (bool * str) :=
  ret (false, lit "").

Definition priority : M Prompting float :=
  ret 0%float.

End PromptingNb.

(** ** [examples/streaming.ipynb] *)

Module StreamingNb.
Import Py Pydantic.
Local Open Scope py_scope.

(** [class StreamPrompting(bt.StreamingSynapse)]. The class declares no
    [Config] of its own; [process_streaming_response] allows for
    [completion] being [None], so the field holds [None] or a [str]. *)
Record StreamPrompting :=
  { roles : list str; messages : list str; completion : option str }.

Definition roles_field : FieldInfo (list str) :=
  {| default := None; allow_mutation := false |}.
Definition messages_field : FieldInfo (list str) :=
  {| default := None; allow_mutation := false |}.
Definition completion_field : FieldInfo str :=
  {| default := Some []; allow_mutation := true |}.

Definition __init__ (roles_arg messages_arg : option (list str))
    (completion_arg : option str) : result StreamPrompting :=
  match init_field roles_field roles_arg,
        init_field messages_field messages_arg,
        init_field completion_field completion_arg with
  | Ok r, Ok m, Ok c =>
      Ok {| roles := r; messages := m; completion := Some c |}
  | _, _, _ => Raise ValidationError
  end.

(** An ASGI message passed to [send]. *)
Record Message :=
  { type : string; body : bytes; more_body : bool }.

(** The local variable [buffer] of [_prompt] and the messages it has
    passed to [send] so far, oldest first. *)
Record Coroutine :=
  { buffer : list str; sent : list Message }.

(** What [create_streaming_response] wraps: the coroutine to run. *)
Record BTStreamingResponse :=
  { token_streamer : M Coroutine unit }.

Section Collaborators.

(** The [Config] inherited from [bt.StreamingSynapse], which is not
    part of the repository. *)
Variable Config : Pydantic.Config.

(** The GPT-2 tokenizer: the one row of ids of
    [tokenizer(text, return_tensors="pt").input_ids], and
    [tokenizer.decode(id)]. *)
Variable token_id : Type.
Variable tokenizer : str -> list token_id.
Variable tokenizer_decode : token_id -> str.

Definition set_roles (v : list str) : M StreamPrompting unit :=
  setattr Config roles_field true
    (fun self => {| roles := v; messages := messages self;
                    completion := completion self |}).
Definition set_messages (v : list str) : M StreamPrompting unit :=
  setattr Config messages_field true
    (fun self => {| roles := roles self; messages := v;
                    completion := completion self |}).
(** [None] is not a valid [str]. *)
Definition set_completion (v : option str) : M StreamPrompting unit :=
  setattr Config completion_field (if v is Some _ then true else false)
    (fun self => {| roles := roles self; messages := messages self;
                    completion := v |}).

(** [self.completion += token] *)
Definition iadd_completion (token : str) : M StreamPrompting unit :=
  self <- get ;;
  match completion self with
  | Some c => set_completion (Some (c ++ token))
  | None => raise TypeError
  end.

(** [response] is the sequence of chunks that
    [response.content.iter_any()] yields. *)
Definition process_streaming_response (response : list bytes)
  : M StreamPrompting unit :=
  self <- get ;;
  (if completion self is None then set_completion (Some (lit ""))
   else ret tt) ;;
  for_each response (fun chunk =>
    text <- lift UnicodeDecodeError (utf8_decode chunk) ;;
    let tokens := split newline text in
    for_each tokens (fun token =>
      if truthy token then iadd_completion token else ret tt)).

Definition deserialize : M StreamPrompting (option str) :=
  self <- get ;; ret (completion self).

(** A tensor of token ids without its batch dimension: 0-d or 1-d. *)
Inductive tensor :=
| Scalar (id : token_id)
| Vector (ids : list token_id).

(** [.squeeze()] on the one-row batch: every dimension of size one goes,
    so a row of exactly one id becomes a 0-d tensor. *)
Definition squeeze (row : list token_id) : tensor :=
  match row with
  | [id] => Scalar id
  | _ => Vector row
  end.

(** [model(ids)]: the generator of the decoded ids. Iterating a 0-d
    tensor raises [TypeError]. *)
Definition model (ids : tensor) : result (list str) :=
  match ids with
  | Scalar _ => Raise TypeError
  | Vector ids => Ok (map tokenizer_decode ids)
  end.

Definition set_buffer (b : list str) : M Coroutine unit :=
  modify (fun st => {| buffer := b; sent := sent st |}).
Definition send (m : Message) : M Coroutine unit :=
  modify (fun st => {| buffer := buffer st; sent := sent st ++ [m] |}).

(** The body of [_prompt] from [buffer = []] on, for the tokens that
    [model(input_ids)] yields. Sleeping and logging are left out. *)
Definition _prompt_tokens (tokens : list str) : M Coroutine unit :=
  let N := 4%nat in
  set_buffer [] ;;
  for_each tokens (fun token =>
    st <- get ;;
    set_buffer (buffer st ++ [token]) ;;
    st <- get ;;
    if (length (buffer st) =? N)%nat then
      let joined_buffer := join (buffer st) in
      encoded <- lift UnicodeEncodeError (utf8_encode joined_buffer) ;;
      send {| type := "http.response.body"; body := encoded;
              more_body := true |} ;;
      set_buffer []
    else ret tt) ;;
  st <- get ;;
  if truthy (buffer st) then
    let joined_buffer := join (buffer st) in
    encoded <- lift UnicodeEncodeError (utf8_encode joined_buffer) ;;
    send {| type := "http.response.body"; body := encoded;
            more_body := false |}
  else ret tt.

Definition _prompt (text : str) : M Coroutine unit :=
  let input_ids := squeeze (tokenizer text) in
  match model input_ids with
  | Ok tokens => _prompt_tokens tokens
  | Raise e => set_buffer [] ;; raise e
  end.

(** [synapse.create_streaming_response(token_streamer)] of
    [bt.StreamingSynapse]: wraps the coroutine. *)
Definition create_streaming_response (streamer : M Coroutine unit)
  : M StreamPrompting BTStreamingResponse :=
  ret {| token_streamer := streamer |}.

(** The streaming handler. [messages[0]] raises [IndexError] on an
    empty list. *)
Definition prompt : M StreamPrompting BTStreamingResponse :=
  synapse <- get ;;
  message <- lift IndexError (messages synapse !! 0%nat) ;;
  let token_streamer := _prompt message in
  create_streaming_response token_streamer.

Definition blacklist : M StreamPrompting (bool * str) :=
  ret (false, lit "").

Definition priority : M StreamPrompting float :=
  ret 0%float.

End Collaborators.

(** What the coroutine puts on the wire when started afresh. *)
Definition flushes (streamer : M Coroutine unit) : list Message :=
  sent (exec streamer {| buffer := []; sent := [] |}).

End StreamingNb.

(** ** [StreamPrompting.extract_response_json] *)

Module StreamingJson.
Import Py.

(** A [dict] with [str] keys, in insertion order. *)
Abbreviation dict V := (list (list N * V)) (only parsing).

(** [d[k] = v]: an existing key keeps its place and takes the new
    value, a new key goes last. *)
Fixpoint dict_set {V} (d : dict V) (k : str) (v : V) : dict V :=
  match d with
  | [] => [(k, v)]
  | (k', v') :: d' =>
      if decide (k' = k) then (k', v) :: d' else (k', v') :: dict_set d' k v
  end.

(** [d.get(k)] *)
Fixpoint dict_get {V} (d : dict V) (k : str) : option V :=
  match d with
  | [] => None
  | (k', v') :: d' => if decide (k' = k) then Some v' else dict_get d' k
  end.

(** [s.startswith(prefix)] *)
Fixpoint startswith (s prefix : str) : bool :=
  match prefix, s with
  | [], _ => true
  | p :: prefix', c :: s' => (c =? p) && startswith s' prefix'
  | _ :: _, [] => false
  end.

(** [key.split('_')[-1]] *)
Definition last_segment (key : str) : str :=
  List.last (split 95 key) [].

(** The response object as far as the method reads it:
    [response.__dict__["_raw_headers"]]. *)
Record ClientResponse :=
  { _raw_headers : list (list Byte.byte * list Byte.byte) }.

(** The value the method returns; the keys of the Python dict are the
    fields. *)
Record ResponseJson :=
  { name : str;
    timeout : float;
    total_size : Z;
    header_size : Z;
    dendrite : dict str;
    axon : dict str;
    roles : list str;
    messages : list str;
    completion : option str }.

(** What the method can raise: an exception of the decoder, or the
    [ValueError] of [float] and [int]. *)
Inductive raised :=
| Raised (e : exn)
| ValueError.

(** The dict comprehension over the raw headers: name and value are
    decoded in this order and stored; [None] stands for
    [UnicodeDecodeError]. *)
Fixpoint decode_headers (raw : list (bytes * bytes)) (headers : dict str)
  : option (dict str) :=
  match raw with
  | [] => Some headers
  | (k, v) :: raw' =>
      match utf8_decode k with
      | None => None
      | Some key =>
          match utf8_decode v with
          | None => None
          | Some value => decode_headers raw' (dict_set headers key value)
          end
      end
  end.

(** The inner function [extract_info]. *)
Definition extract_info (headers : dict str) (prefix : str) : dict str :=
  fold_left
    (λ info '(key, value),
       if startswith key prefix then dict_set info (last_segment key) value
       else info)
    headers [].

Section Builtins.

(** [float(s)] and [int(s)] on a [str]; [None] stands for [ValueError]. *)
Variable float_of_str : str → option float.
Variable int_of_str : str → option Z.

(** [float(headers.get(key, 0))] and [int(headers.get(key, 0))] *)
Definition float_header (headers : dict str) (key : str) : option float :=
  match dict_get headers key with
  | Some value => float_of_str value
  | None => Some 0%float
  end.
Definition int_header (headers : dict str) (key : str) : option Z :=
  match dict_get headers key with
  | Some value => int_of_str value
  | None => Some 0%Z
  end.

Definition extract_response_json (self : StreamingNb.StreamPrompting)
    (response : ClientResponse) : raised + ResponseJson :=
  match decode_headers (_raw_headers response) [] with
  | None => inl (Raised UnicodeDecodeError)
  | Some headers =>
      match float_header headers (lit "timeout"),
            int_header headers (lit "total_size"),
            int_header headers (lit "header_size") with
      | Some timeout_value, Some total_size_value, Some header_size_value =>
          inr {| name := match dict_get headers (lit "name") with
                         | Some value => value
                         | None => lit ""
                         end;
                 timeout := timeout_value;
                 total_size := total_size_value;
                 header_size := header_size_value;
                 dendrite := extract_info headers (lit "bt_header_dendrite");
                 axon := extract_info headers (lit "bt_header_axon");
                 roles := StreamingNb.roles self;
                 messages := StreamingNb.messages self;
                 completion := StreamingNb.completion self |}
      | _, _, _ => inl ValueError
      end
  end.

End Builtins.

End StreamingJson.

(** ** Reference notions the properties are stated with *)

Import Py Pydantic.
Local Open Scope py_scope.

(** A text with every newline character removed. *)
Definition strip_newlines (s : str) : str :=
  filter (λ c, c ≠ newline) s.

(** The texts of the chunks up to the first one that is not UTF-8. *)
Fixpoint decoded_prefix (chunks : list bytes) : list str :=
  match chunks with
  | [] => []
  | chunk :: rest =>
      match utf8_decode chunk with
      | Some text => text :: decoded_prefix rest
      | None => []
      end
  end.

(** Whether every chunk is UTF-8. *)
Definition all_decodable (chunks : list bytes) : bool :=
  forallb (λ chunk, if utf8_decode chunk is Some _ then true else false)
    chunks.

(** The text held by a [completion] attribute, [None] counting as empty:
    what [process_streaming_response] starts from. *)
Definition text_of (v : option str) : str :=
  match v with
  | Some s => s
  | None => []
  end.

Definition with_completion (e : StreamingNb.StreamPrompting)
    (v : option str) : StreamingNb.StreamPrompting :=
  {| StreamingNb.roles := StreamingNb.roles e;
     StreamingNb.messages := StreamingNb.messages e;
     StreamingNb.completion := v |}.

(** A stand-in tokenizer for running the handler on concrete inputs: one
    token per character. *)
Definition char_tokenizer (text : str) : list codepoint := text.
Definition char_tokenizer_decode (id : codepoint) : str := [id].

(** The envelope a sender creates and the configuration used when a
    property is run on a concrete input. *)
Definition checked : Config := {| validate_assignment := true |}.
Definition fresh (roles messages : list str) : StreamingNb.StreamPrompting :=
  {| StreamingNb.roles := roles; StreamingNb.messages := messages;
     StreamingNb.completion := Some (lit "") |}.

(** The five one-letter tokens of the streaming example. *)
Definition abcde : list str := map lit ["a"; "b"; "c"; "d"; "e"]%string.

Definition prompting_frame (e e' : PromptingNb.Prompting) : Prop :=
  PromptingNb.roles e' = PromptingNb.roles e
  ∧ PromptingNb.messages e' = PromptingNb.messages e.

Definition streaming_frame (e e' : StreamingNb.StreamPrompting) : Prop :=
  StreamingNb.roles e' = StreamingNb.roles e
  ∧ StreamingNb.messages e' = StreamingNb.messages e.

(** *** The sending side *)

Definition http_body (encoded : bytes) (more : bool) : StreamingNb.Message :=
  {| StreamingNb.type := "http.response.body";
     StreamingNb.body := encoded;
     StreamingNb.more_body := more |}.

(** The tokens in groups of [n] in order, the last group holding what is
    left over. *)
Fixpoint batches_from (fuel n : nat) (tokens : list str) : list (list str) :=
  match fuel, tokens with
  | O, _ | _, [] => []
  | S fuel, _ => take n tokens :: batches_from fuel n (drop n tokens)
  end.

Definition batches (n : nat) (tokens : list str) : list (list str) :=
  batches_from (length tokens) n tokens.

(** A text that [str.encode("utf-8")] accepts. *)
Definition encodable (text : str) : Prop := is_Some (utf8_encode text).

(** What [_prompt] sends for one group: a group of four goes out from
    inside the loop with [more_body = True], a shorter one after the loop
    with [more_body = False]. *)
Definition flush_of (batch : list str) : option StreamingNb.Message :=
  encoded ← utf8_encode (join batch);
  Some (http_body encoded (length batch =? 4)%nat).

(** The loop of [_prompt]. *)
Definition batch_loop (tokens : list str) : M StreamingNb.Coroutine unit :=
  for_each tokens (λ token,
    st <- get ;;
    StreamingNb.set_buffer (StreamingNb.buffer st ++ [token]) ;;
    st <- get ;;
    if (length (StreamingNb.buffer st) =? 4)%nat then
      let joined_buffer := join (StreamingNb.buffer st) in
      encoded <- lift UnicodeEncodeError (utf8_encode joined_buffer) ;;
      StreamingNb.send (http_body encoded true) ;;
      StreamingNb.set_buffer []
    else ret tt).

(** The remainder flush after the loop. *)
Definition final_flush : M StreamingNb.Coroutine unit :=
  st <- get ;;
  if truthy (StreamingNb.buffer st) then
    let joined_buffer := join (StreamingNb.buffer st) in
    encoded <- lift UnicodeEncodeError (utf8_encode joined_buffer) ;;
    StreamingNb.send (http_body encoded false)
  else ret tt.

(** *** Reference notions for the rest of the two notebooks *)

(** The flushes of the groups up to the first one that does not encode. *)
Fixpoint flushed_prefix (groups : list (list str))
  : list StreamingNb.Message :=
  match groups with
  | [] => []
  | group :: rest =>
      match flush_of group with
      | Some m => m :: flushed_prefix rest
      | None => []
      end
  end.

Definition all_flushable (groups : list (list str)) : bool :=
  forallb (λ group, if flush_of group is Some _ then true else false) groups.

(** The coroutine before it has run. *)
Definition started : StreamingNb.Coroutine :=
  {| StreamingNb.buffer := []; StreamingNb.sent := [] |}.

(** One raw header decoded: name first, then value. *)
Definition decode_pair (kv : bytes * bytes) : option (str * str) :=
  match utf8_decode kv.1, utf8_decode kv.2 with
  | Some key, Some value => Some (key, value)
  | _, _ => None
  end.

(** The value of the last pair called [key]. *)
Definition last_value (pairs : list (str * str)) (key : str) : option str :=
  snd <$> last (filter (λ kv, kv.1 = key) pairs).

(** The headers that count for [extract_info] under a segment. *)
Abbreviation contributes prefix seg :=
  (λ kv : list N * list N,
     StreamingJson.startswith kv.1 prefix = true
     ∧ StreamingJson.last_segment kv.1 = seg).

(** The value [float(headers.get(key, 0))] or [int(headers.get(key, 0))]
    takes, read off the raw header list: the parse of the last header
    called [key], the number 0 without any parse when there is none. *)
Definition parsed_header {A} (parse : str → option A) (zero : A)
    (pairs : list (str * str)) (key : str) : option A :=
  match last_value pairs key with
  | Some value => parse value
  | None => Some zero
  end.

(** A stand-in for [float] and [int] that accepts no text, for running
    the method on responses without numeric headers. *)
Definition no_parse {A} (text : str) : option A := None.

(** ** The monad *)

Lemma bind_ok {S A B} (c : M S A) (k : A → M S B) s s' a :
  c s = (s', Ok a) → bind c k s = k a s'.
Proof. unfold bind. by intros ->. Qed.

(** ** The codec and [split] on small inputs *)

(** [h], e-acute, the euro sign and an emoji: one to four bytes each. *)
Example utf8_encode_sample :
  utf8_encode [104; 233; 8364; 128512]
  = Some ["h"; "195"; "169"; "226"; "130"; "172";
          "240"; "159"; "152"; "128"]%byte.
Proof. done. Qed.

Example utf8_decode_sample :
  utf8_decode ["h"; "195"; "169"; "226"; "130"; "172";
               "240"; "159"; "152"; "128"]%byte
  = Some [104; 233; 8364; 128512].
Proof. done. Qed.

(** An overlong form, an encoded surrogate, a truncated sequence and a
    lone continuation byte are refused. *)
Example utf8_decode_refuses :
  utf8_decode ["192"; "128"]%byte = None
  ∧ utf8_decode ["237"; "160"; "128"]%byte = None
  ∧ utf8_decode ["226"; "130"]%byte = None
  ∧ utf8_decode ["169"]%byte = None.
Proof. done. Qed.

Example utf8_encode_refuses_surrogate : utf8_encode [55296] = None.
Proof. done. Qed.

(** ["a\n\nb\n".split('\n') == ['a', '', 'b', '']] and
    ["".split('\n') == ['']]. *)
Example split_sample :
  split newline [97; 10; 10; 98; 10] = [[97]; []; [98]; []]
  ∧ split newline [] = [[]].
Proof. done. Qed.

(** ** [split] and [join] *)

Lemma split_not_nil sep s : split sep s ≠ [].
Proof.
  destruct s as [|c s]; simpl; first done.
  destruct (c =? sep); first done.
  by destruct (split sep s).
Qed.

Lemma join_split sep s : join (split sep s) = filter (λ c, c ≠ sep) s.
Proof.
  unfold join. induction s as [|c s IH]; first done.
  cbn [split]. destruct (N.eqb_spec c sep) as [->|Hne].
  - rewrite filter_cons_False by (intros H; by apply H). by rewrite <- IH.
  - rewrite filter_cons_True by done. rewrite <- IH.
    pose proof (split_not_nil sep s).
    by destruct (split sep s).
Qed.

Lemma join_truthy (pieces : list str) :
  join (filter (λ t, truthy t = true) pieces) = join pieces.
Proof.
  unfold join. induction pieces as [|t pieces IH]; first done.
  destruct t as [|c t].
  - rewrite filter_cons_False by done. by rewrite IH.
  - rewrite filter_cons_True by done. cbn [concat]. by rewrite IH.
Qed.

Lemma strip_newlines_app s1 s2 :
  strip_newlines (s1 ++ s2) = strip_newlines s1 ++ strip_newlines s2.
Proof. apply filter_app. Qed.

Lemma strip_newlines_concat (texts : list str) :
  strip_newlines (concat texts) = concat (map strip_newlines texts).
Proof.
  induction texts as [|t texts IH]; first done.
  cbn [concat map]. by rewrite strip_newlines_app, IH.
Qed.

Lemma strip_newlines_id s : newline ∉ s → strip_newlines s = s.
Proof.
  unfold strip_newlines. induction s as [|c s IH]; intros Hs; first done.
  apply not_elem_of_cons in Hs as [Hc Hs].
  rewrite filter_cons_True by done. by rewrite IH.
Qed.

Lemma strip_newlines_clean s : newline ∉ strip_newlines s.
Proof.
  unfold strip_newlines. intros [H _]%list_elem_of_filter. by apply H.
Qed.

(** ** The receiving side: [process_streaming_response] *)

Section Receiving.

Variable cfg : Config.

Lemma with_completion_id e : with_completion e (StreamingNb.completion e) = e.
Proof. by destruct e. Qed.

Lemma with_completion_twice e v w :
  with_completion (with_completion e v) w = with_completion e w.
Proof. done. Qed.

Lemma set_completion_some e v :
  StreamingNb.set_completion cfg (Some v) e
  = (with_completion e (Some v), Ok tt).
Proof.
  unfold StreamingNb.set_completion, setattr. simpl.
  by destruct (validate_assignment cfg).
Qed.

Lemma iadd_completion_some e c token :
  StreamingNb.completion e = Some c →
  StreamingNb.iadd_completion cfg token e
  = (with_completion e (Some (c ++ token)), Ok tt).
Proof.
  intros Hc. unfold StreamingNb.iadd_completion, bind, get.
  rewrite Hc. apply set_completion_some.
Qed.

(** The inner loop appends the pieces in order; the empty ones add
    nothing. *)
Lemma append_tokens tokens e c :
  StreamingNb.completion e = Some c →
  for_each tokens
    (λ token, if truthy token then StreamingNb.iadd_completion cfg token
              else ret tt) e
  = (with_completion e (Some (c ++ join tokens)), Ok tt).
Proof.
  revert e c. induction tokens as [|t tokens IH]; intros e c Hc.
  - cbn. rewrite app_nil_r, <- Hc. by rewrite with_completion_id.
  - cbn [for_each]. destruct t as [|x t]; cbn [truthy].
    + erewrite bind_ok by done. by apply IH.
    + erewrite bind_ok by by apply iadd_completion_some.
      erewrite IH by done. rewrite with_completion_twice.
      unfold join. cbn [concat]. by rewrite <- app_assoc.
Qed.

(** The outer loop: every chunk that decodes contributes its text with
    the newlines removed; the first chunk that does not decode raises,
    and what was appended before it stays. *)
Lemma assemble_chunks response e c :
  StreamingNb.completion e = Some c →
  for_each response
    (λ chunk,
       text <- lift UnicodeDecodeError (utf8_decode chunk) ;;
       let tokens := split newline text in
       for_each tokens
         (λ token, if truthy token then StreamingNb.iadd_completion cfg token
                   else ret tt)) e
  = (with_completion e
       (Some (c ++ concat (map strip_newlines (decoded_prefix response)))),
     if all_decodable response then Ok tt else Raise UnicodeDecodeError).
Proof.
  revert e c. induction response as [|chunk response IH]; intros e c Hc.
  - cbn. rewrite app_nil_r, <- Hc. by rewrite with_completion_id.
  - cbn [for_each decoded_prefix all_decodable forallb].
    destruct (utf8_decode chunk) as [text|] eqn:Hdec.
    + erewrite bind_ok; last first.
      { erewrite bind_ok by done. cbn zeta. by apply append_tokens. }
      erewrite IH by done. rewrite with_completion_twice.
      cbn [map concat andb]. rewrite join_split.
      by rewrite <- app_assoc.
    + cbn. rewrite app_nil_r, <- Hc. by rewrite with_completion_id.
Qed.

Lemma process_streaming_response_run response e :
  StreamingNb.process_streaming_response cfg response e
  = (with_completion e
       (Some (text_of (StreamingNb.completion e)
              ++ concat (map strip_newlines (decoded_prefix response)))),
     if all_decodable response then Ok tt else Raise UnicodeDecodeError).
Proof.
  unfold StreamingNb.process_streaming_response.
  unfold bind at 1. unfold get at 1.
  destruct (StreamingNb.completion e) as [c|] eqn:Hc.
  - erewrite bind_ok by done. by apply assemble_chunks.
  - erewrite bind_ok by apply set_completion_some.
    erewrite assemble_chunks by done. by rewrite with_completion_twice.
Qed.

End Receiving.

Lemma mapM_decoded (response : list bytes) (texts : list str) :
  mapM utf8_decode response = Some texts →
  decoded_prefix response = texts ∧ all_decodable response = true.
Proof.
  unfold all_decodable. rewrite mapM_Some.
  induction 1 as [|chunk text response texts Hd _ [IH1 IH2]]; first done.
  cbn [decoded_prefix forallb]. rewrite Hd, IH1. by split.
Qed.

(** C1: the code does not do what the claim and the method's docstring
    say. A chunk that holds a newline is not appended as it is: for the
    single chunk [a\nb] received into an empty completion the result is
    [ab], not the chunk's text, so the final completion is not the
    concatenation of the chunk texts. *)
Lemma concatenation_drops_newlines :
  utf8_decode ["a"; "010"; "b"]%byte = Some [97; 10; 98]
  ∧ StreamingNb.completion
      (exec (StreamingNb.process_streaming_response checked
               [["a"; "010"; "b"]%byte]) (fresh [] []))
    = Some (lit "ab")
  ∧ ¬ (∀ (cfg : Config) (e : StreamingNb.StreamPrompting)
         (response : list bytes) (texts : list str),
          mapM utf8_decode response = Some texts →
          StreamingNb.completion e = Some (lit "") →
          StreamingNb.completion
            (exec (StreamingNb.process_streaming_response cfg response) e)
          = Some (concat texts)).
Proof.
  split; first done. split; first done.
  intros H.
  specialize (H checked (fresh [] []) [["a"; "010"; "b"]%byte]
                [[97; 10; 98]] eq_refl eq_refl).
  vm_compute in H. discriminate H.
Qed.

(** What the method does when every chunk of the response is UTF-8:
    the chunks' texts with their newline characters removed are appended
    to the completion in arrival order and nothing is raised; when no
    chunk holds a newline this is the concatenation of the chunk texts;
    how the same text is cut into chunks makes no difference; and the
    flushes produced for the tokens a, b, c, d, e assemble to [abcde]. *)
Theorem completion_concatenates_stripped_chunks
    (cfg : Config) (e : StreamingNb.StreamPrompting)
    (response : list bytes) (texts : list str) :
  mapM utf8_decode response = Some texts →
  StreamingNb.process_streaming_response cfg response e
  = (with_completion e
       (Some (text_of (StreamingNb.completion e)
              ++ concat (map strip_newlines texts))), Ok tt)
  ∧ (Forall (λ text, newline ∉ text) texts →
     StreamingNb.completion
       (exec (StreamingNb.process_streaming_response cfg response) e)
     = Some (text_of (StreamingNb.completion e) ++ concat texts))
  ∧ (∀ (response' : list bytes) (texts' : list str),
       mapM utf8_decode response' = Some texts' →
       concat texts' = concat texts →
       exec (StreamingNb.process_streaming_response cfg response') e
       = exec (StreamingNb.process_streaming_response cfg response) e)
  ∧ (∀ roles messages,
       StreamingNb.completion
         (exec (StreamingNb.process_streaming_response cfg
                  (map StreamingNb.body
                     (StreamingNb.flushes
                        (StreamingNb._prompt_tokens abcde))))
            (fresh roles messages))
       = Some (lit "abcde")).
Proof.
  intros [Hpre Hall]%mapM_decoded.
  assert (Hrun := process_streaming_response_run cfg response e).
  rewrite Hpre, Hall in Hrun.
  split; [done|]. split; [|split].
  - intros Hclean. unfold exec. rewrite Hrun. cbn. do 2 f_equal.
    clear -Hclean. induction Hclean as [|t ts Ht _ IH]; first done.
    cbn. by rewrite strip_newlines_id, IH.
  - intros response' texts' [Hpre' Hall']%mapM_decoded Hsame.
    unfold exec. rewrite Hrun, process_streaming_response_run.
    rewrite Hpre'. cbn.
    by rewrite <- !strip_newlines_concat, Hsame.
  - intros roles messages. unfold exec.
    by rewrite process_streaming_response_run.
Qed.

Lemma completion_concatenates_stripped_chunks_witness :
  StreamingNb.process_streaming_response checked
    [["a"; "010"; "b"]%byte; ["c"]%byte] (fresh [] [])
  = (with_completion (fresh [] []) (Some (lit "abc")), Ok tt).
Proof.
  exact (proj1 (completion_concatenates_stripped_chunks checked (fresh [] [])
                  [["a"; "010"; "b"]%byte; ["c"]%byte]
                  [[97; 10; 98]; [99]] eq_refl)).
Defined.

(** C9: whatever the response, the completion held before
    [process_streaming_response] runs ([None] counting as the empty text
    the method starts from) is a prefix of the completion held
    afterwards, also when a chunk fails to decode. *)
Theorem completion_only_grows
    (cfg : Config) (response : list bytes)
    (e : StreamingNb.StreamPrompting) :
  ∃ after : str,
    StreamingNb.completion
      (exec (StreamingNb.process_streaming_response cfg response) e)
    = Some after
    ∧ text_of (StreamingNb.completion e) `prefix_of` after.
Proof.
  unfold exec. rewrite process_streaming_response_run. cbn.
  eexists. split; first done. by apply prefix_app_r.
Qed.

(** C10: the text that [process_streaming_response] appends is the
    decoded text of the chunks it processed with every newline removed,
    which is what splitting on the newline and dropping the empty pieces
    leaves; no newline character is in it. *)
Theorem appended_text_has_no_newline
    (cfg : Config) (response : list bytes)
    (e : StreamingNb.StreamPrompting) :
  ∃ appended : str,
    StreamingNb.completion
      (exec (StreamingNb.process_streaming_response cfg response) e)
    = Some (text_of (StreamingNb.completion e) ++ appended)
    ∧ appended = concat (map strip_newlines (decoded_prefix response))
    ∧ (newline ∉ appended)
    ∧ (∀ text : str,
         strip_newlines text
         = join (filter (λ token, truthy token = true)
                   (split newline text))).
Proof.
  unfold exec. rewrite process_streaming_response_run. cbn.
  eexists. split; first done. split; first done. split.
  - rewrite <- strip_newlines_concat. apply strip_newlines_clean.
  - intros text. by rewrite join_truthy, join_split.
Qed.

(** ** The envelopes: construction, [deserialize], hash fields, priority *)

(** C3: [deserialize] returns the completion the envelope holds and
    changes nothing, for both classes; so run after a handler that wrote
    the completion (the example handler [prompt], any assignment of the
    completion, or the streaming assembly) it returns what was written. *)
Theorem deserialize_returns_completion :
  (∀ e : PromptingNb.Prompting,
     PromptingNb.deserialize e = (e, Ok (PromptingNb.completion e)))
  ∧ (∀ e : StreamingNb.StreamPrompting,
       StreamingNb.deserialize e = (e, Ok (StreamingNb.completion e)))
  ∧ (∀ e : PromptingNb.Prompting,
       outcome (PromptingNb.prompt ;; PromptingNb.deserialize) e
       = Ok (lit "I am a chatbot"))
  ∧ (∀ (e : PromptingNb.Prompting) (written : str),
       outcome (PromptingNb.set_completion written ;;
                PromptingNb.deserialize) e
       = Ok written)
  ∧ (∀ (cfg : Config) (e : StreamingNb.StreamPrompting) (written : str),
       outcome (StreamingNb.set_completion cfg (Some written) ;;
                StreamingNb.deserialize) e
       = Ok (Some written))
  ∧ (∀ (cfg : Config) (e : StreamingNb.StreamPrompting)
       (response : list bytes),
       all_decodable response = true →
       outcome (StreamingNb.process_streaming_response cfg response ;;
                StreamingNb.deserialize) e
       = Ok (StreamingNb.completion
               (exec (StreamingNb.process_streaming_response cfg response)
                  e))).
Proof.
  repeat split; try done.
  - intros cfg e written. unfold outcome.
    by erewrite bind_ok by apply set_completion_some.
  - intros cfg e response Hall. unfold outcome, exec.
    assert (Hrun := process_streaming_response_run cfg response e).
    rewrite Hall in Hrun. by erewrite bind_ok, Hrun by exact Hrun.
Qed.


(** C6: in both notebooks [priority] returns 0.0 and leaves the envelope
    exactly as it was. *)
Theorem priority_is_zero_and_pure :
  (∀ e : PromptingNb.Prompting, PromptingNb.priority e = (e, Ok 0%float))
  ∧ (∀ e : StreamingNb.StreamPrompting,
       StreamingNb.priority e = (e, Ok 0%float)).
Proof. done. Qed.

(** C7: an envelope constructed from roles and messages alone holds the
    empty string as its completion, for both classes. *)
Theorem completion_empty_at_creation (roles messages : list str) :
  PromptingNb.__init__ (Some roles) (Some messages) None
  = Ok {| PromptingNb.roles := roles; PromptingNb.messages := messages;
          PromptingNb.completion := lit "" |}
  ∧ StreamingNb.__init__ (Some roles) (Some messages) None
    = Ok {| StreamingNb.roles := roles; StreamingNb.messages := messages;
            StreamingNb.completion := Some (lit "") |}.
Proof. done. Qed.

(** ** Immutability of [roles] and [messages] *)

Section Handler.

Variable token_id : Type.
Variable tokenizer : str → list token_id.
Variable tokenizer_decode : token_id → str.

Abbreviation prompt := (StreamingNb.prompt token_id tokenizer tokenizer_decode).
Abbreviation _prompt :=
  (StreamingNb._prompt token_id tokenizer tokenizer_decode).

Lemma prompt_run e :
  prompt e
  = (e, match StreamingNb.messages e with
        | message :: _ =>
            Ok {| StreamingNb.token_streamer := _prompt message |}
        | [] => Raise IndexError
        end).
Proof.
  unfold StreamingNb.prompt, bind, get.
  by destruct (StreamingNb.messages e).
Qed.

(** Without validated assignment pydantic stores a new [roles] value:
    the rejection of C4 rests on the inherited [Config]. *)
Lemma unchecked_assignment_is_stored e v :
  StreamingNb.set_roles {| validate_assignment := false |} v e
  = ({| StreamingNb.roles := v;
        StreamingNb.messages := StreamingNb.messages e;
        StreamingNb.completion := StreamingNb.completion e |}, Ok tt).
Proof. done. Qed.

(** C4: the handler, [blacklist], [priority], [deserialize], the hash
    field list and the streaming assembly leave [roles] and [messages]
    of an envelope as they were, for both classes; an assignment to
    either field of a [Prompting] envelope raises and stores nothing,
    and so does one on a [StreamPrompting] envelope, whose class
    inherits its [Config], when that [Config] validates assignments. *)
Theorem roles_and_messages_immutable (cfg : Config) :
  validate_assignment cfg = true →
  (∀ e : PromptingNb.Prompting,
     prompting_frame e (exec PromptingNb.prompt e)
     ∧ prompting_frame e (exec PromptingNb.blacklist e)
     ∧ prompting_frame e (exec PromptingNb.priority e)
     ∧ prompting_frame e (exec PromptingNb.deserialize e)
     ∧ (∀ inherited,
          prompting_frame e
            (exec (PromptingNb.required_hash_fields inherited) e))
     ∧ (∀ v, PromptingNb.set_roles v e = (e, Raise TypeError))
     ∧ (∀ v, PromptingNb.set_messages v e = (e, Raise TypeError)))
  ∧ (∀ e : StreamingNb.StreamPrompting,
       streaming_frame e (exec prompt e)
       ∧ streaming_frame e (exec StreamingNb.blacklist e)
       ∧ streaming_frame e (exec StreamingNb.priority e)
       ∧ streaming_frame e (exec StreamingNb.deserialize e)
       ∧ (∀ response,
            streaming_frame e
              (exec (StreamingNb.process_streaming_response cfg response)
                 e))
       ∧ (∀ v, StreamingNb.set_roles cfg v e = (e, Raise TypeError))
       ∧ (∀ v, StreamingNb.set_messages cfg v e = (e, Raise TypeError))).
Proof.
  intros Hcfg. split; intros e.
  - repeat split; try done;
      match goal with inherited : option _ |- _ => by destruct inherited end.
  - repeat split; try done.
    + unfold exec. by rewrite prompt_run.
    + unfold exec. by rewrite prompt_run.
    + unfold exec. by rewrite process_streaming_response_run.
    + unfold exec. by rewrite process_streaming_response_run.
    + intros v. unfold StreamingNb.set_roles, setattr. by rewrite Hcfg.
    + intros v. unfold StreamingNb.set_messages, setattr. by rewrite Hcfg.
Qed.

(** C8: on an envelope whose [messages] start with [message] the
    streaming handler returns the streamer for that [message], whatever
    the other messages, the roles and the completion are, and leaves the
    envelope as it is; on an envelope with no message it raises
    [IndexError]; so the handler returns a response exactly when
    [messages] is not empty. *)
Theorem prompt_reads_first_message :
  (∀ roles message others completion,
     prompt {| StreamingNb.roles := roles;
               StreamingNb.messages := message :: others;
               StreamingNb.completion := completion |}
     = ({| StreamingNb.roles := roles;
           StreamingNb.messages := message :: others;
           StreamingNb.completion := completion |},
        Ok {| StreamingNb.token_streamer := _prompt message |}))
  ∧ (∀ roles completion,
       prompt {| StreamingNb.roles := roles; StreamingNb.messages := [];
                 StreamingNb.completion := completion |}
       = ({| StreamingNb.roles := roles; StreamingNb.messages := [];
             StreamingNb.completion := completion |}, Raise IndexError))
  ∧ (∀ roles roles' message others others' completion completion',
       outcome prompt
         {| StreamingNb.roles := roles;
            StreamingNb.messages := message :: others;
            StreamingNb.completion := completion |}
       = outcome prompt
           {| StreamingNb.roles := roles';
              StreamingNb.messages := message :: others';
              StreamingNb.completion := completion' |})
  ∧ (∀ e, (∃ response, outcome prompt e = Ok response)
          ↔ StreamingNb.messages e ≠ []).
Proof.
  repeat split; try done.
  - unfold outcome. rewrite prompt_run.
    destruct (StreamingNb.messages e); [by intros [? ?] | done].
  - unfold outcome. rewrite prompt_run.
    destruct (StreamingNb.messages e); [done | by eexists].
Qed.

End Handler.

Lemma roles_and_messages_immutable_witness :
  StreamingNb.set_roles checked [lit "system"] (fresh [lit "user"] [lit "hi"])
  = (fresh [lit "user"] [lit "hi"], Raise TypeError)
  ∧ PromptingNb.messages
      (exec PromptingNb.prompt
         {| PromptingNb.roles := [lit "user"];
            PromptingNb.messages := [lit "hi"];
            PromptingNb.completion := lit "" |})
    = [lit "hi"].
Proof.
  pose proof (roles_and_messages_immutable N char_tokenizer
                char_tokenizer_decode checked eq_refl) as [Hp Hs].
  split.
  - exact (proj1 (proj2 (proj2 (proj2 (proj2 (proj2
             (Hs (fresh [lit "user"] [lit "hi"]))))))) [lit "system"]).
  - exact (proj2 (proj1 (Hp {| PromptingNb.roles := [lit "user"];
                               PromptingNb.messages := [lit "hi"];
                               PromptingNb.completion := lit "" |}))).
Defined.

(** ** The sending side: [_prompt] *)

Lemma _prompt_tokens_unfold tokens :
  StreamingNb._prompt_tokens tokens
  = (StreamingNb.set_buffer [] ;; batch_loop tokens ;; final_flush).
Proof. done. Qed.

Lemma batches_from_nil fuel n : batches_from fuel n [] = [].
Proof. by destruct fuel. Qed.

Lemma batch_loop_short tokens s :
  (length tokens < 4)%nat →
  batch_loop tokens {| StreamingNb.buffer := []; StreamingNb.sent := s |}
  = ({| StreamingNb.buffer := tokens; StreamingNb.sent := s |}, Ok tt).
Proof.
  destruct tokens as [|t1 [|t2 [|t3 [|t4 rest]]]]; cbn; try done. lia.
Qed.

Lemma batch_loop_full t1 t2 t3 t4 rest s encoded :
  utf8_encode (join [t1; t2; t3; t4]) = Some encoded →
  batch_loop (t1 :: t2 :: t3 :: t4 :: rest)
    {| StreamingNb.buffer := []; StreamingNb.sent := s |}
  = batch_loop rest
      {| StreamingNb.buffer := [];
         StreamingNb.sent := s ++ [http_body encoded true] |}.
Proof.
  intros Henc. unfold batch_loop. cbn [for_each].
  do 3 (erewrite bind_ok by reflexivity).
  erewrite bind_ok; first reflexivity.
  cbn -[utf8_encode join]. by rewrite Henc.
Qed.

Lemma batches_from_cons fuel n t tokens :
  batches_from (S fuel) n (t :: tokens)
  = take n (t :: tokens) :: batches_from fuel n (drop n (t :: tokens)).
Proof. done. Qed.

Lemma mapM_cons_Some {A B} (f : A → option B) x l k :
  mapM f (x :: l) = Some k →
  ∃ y k', f x = Some y ∧ mapM f l = Some k' ∧ k = y :: k'.
Proof.
  rewrite mapM_Some. intros (y & k' & Hy & Hk & ->)%Forall2_cons_inv_l.
  exists y, k'. by rewrite mapM_Some.
Qed.

Lemma flush_of_Some batch m :
  flush_of batch = Some m →
  ∃ encoded, utf8_encode (join batch) = Some encoded
             ∧ m = http_body encoded (length batch =? 4)%nat.
Proof.
  unfold flush_of. destruct (utf8_encode (join batch)) as [encoded|]; last done.
  intros [= <-]. by exists encoded.
Qed.

Lemma remainder_flush tokens s encoded :
  tokens ≠ [] → (length tokens < 4)%nat →
  utf8_encode (join tokens) = Some encoded →
  (batch_loop tokens ;; final_flush)
    {| StreamingNb.buffer := []; StreamingNb.sent := s |}
  = ({| StreamingNb.buffer := tokens;
        StreamingNb.sent := s ++ [http_body encoded false] |}, Ok tt).
Proof.
  intros Hne Hlen Henc. erewrite bind_ok by by apply batch_loop_short.
  unfold final_flush, bind, get. cbn [StreamingNb.buffer].
  destruct tokens; first done. cbn [truthy]. by rewrite Henc.
Qed.

(** The wire after the loop and the remainder flush, from an empty
    buffer: one message per group, in order. *)
Lemma batch_loop_flushes fuel tokens s msgs :
  (length tokens ≤ fuel)%nat →
  mapM flush_of (batches_from fuel 4 tokens) = Some msgs →
  ∃ left_over,
    (batch_loop tokens ;; final_flush)
      {| StreamingNb.buffer := []; StreamingNb.sent := s |}
    = ({| StreamingNb.buffer := left_over; StreamingNb.sent := s ++ msgs |},
       Ok tt).
Proof.
  revert tokens s msgs.
  induction fuel as [|fuel IH]; intros tokens s msgs Hlen Hmsgs.
  { destruct tokens; last (cbn in Hlen; lia).
    injection Hmsgs as <-. exists []. by rewrite app_nil_r. }
  destruct tokens as [|t tokens].
  { injection Hmsgs as <-. exists []. by rewrite app_nil_r. }
  rewrite batches_from_cons in Hmsgs.
  apply mapM_cons_Some in Hmsgs as (m & more & Hm & Hmore & ->).
  apply flush_of_Some in Hm as (encoded & Henc & ->).
  destruct (decide (length (t :: tokens) < 4)%nat) as [Hshort|Hlong].
  - rewrite take_ge in Henc |- * by lia.
    rewrite drop_ge, batches_from_nil in Hmore by lia.
    injection Hmore as <-.
    replace (length (t :: tokens) =? 4)%nat with false
      by (symmetry; apply Nat.eqb_neq; lia).
    eexists. by apply remainder_flush.
  - destruct tokens as [|t2 [|t3 [|t4 rest]]]; try (cbn in Hlong; lia).
    change (take 4 (t :: t2 :: t3 :: t4 :: rest)) with [t; t2; t3; t4]
      in Henc |- *.
    change (drop 4 (t :: t2 :: t3 :: t4 :: rest)) with rest in Hmore.
    destruct (IH rest (s ++ [http_body encoded true]) more)
      as [left_over Hrun]; [cbn in Hlen; lia | done |].
    exists left_over. unfold bind at 1.
    erewrite batch_loop_full by exact Henc.
    unfold bind at 1 in Hrun. rewrite Hrun. by rewrite <- app_assoc.
Qed.

(** What [_prompt] puts on the wire for a token sequence whose groups
    all encode: the flush of each group of four, in order, then the
    flush of the remainder when there is one. *)
Lemma prompt_tokens_flushes tokens msgs :
  mapM flush_of (batches 4 tokens) = Some msgs →
  StreamingNb.flushes (StreamingNb._prompt_tokens tokens) = msgs
  ∧ outcome (StreamingNb._prompt_tokens tokens)
      {| StreamingNb.buffer := []; StreamingNb.sent := [] |} = Ok tt.
Proof.
  intros Hmsgs.
  destruct (batch_loop_flushes (length tokens) tokens [] msgs)
    as [left_over Hrun]; [done | done |].
  unfold StreamingNb.flushes, exec, outcome.
  rewrite _prompt_tokens_unfold.
  erewrite bind_ok by reflexivity. cbn [StreamingNb.sent].
  by rewrite Hrun.
Qed.

(** The groups are the token sequence cut in order, none empty and none
    longer than the batch size. *)
Lemma batches_from_concat fuel n tokens :
  (0 < n)%nat → (length tokens ≤ fuel)%nat →
  concat (batches_from fuel n tokens) = tokens.
Proof.
  intros Hn. revert tokens.
  induction fuel as [|fuel IH]; intros tokens Hlen.
  { by destruct tokens; last (cbn in Hlen; lia). }
  destruct tokens as [|t tokens]; first done.
  rewrite batches_from_cons. cbn [concat].
  rewrite IH; first apply take_drop.
  rewrite length_drop. cbn in Hlen |- *. lia.
Qed.

Lemma batches_concat tokens : concat (batches 4 tokens) = tokens.
Proof. apply batches_from_concat; lia. Qed.

Lemma batches_from_sizes fuel n tokens :
  (0 < n)%nat →
  Forall (λ batch, 0 < length batch ≤ n)%nat (batches_from fuel n tokens).
Proof.
  intros Hn. revert tokens.
  induction fuel as [|fuel IH]; intros tokens; first by destruct tokens.
  destruct tokens as [|t tokens]; first done.
  rewrite batches_from_cons. constructor; last apply IH.
  rewrite length_take. destruct n; cbn; lia.
Qed.

Lemma batches_from_not_nil fuel n tokens :
  batches_from fuel n tokens ≠ [] → tokens ≠ [].
Proof. intros H ->. by rewrite batches_from_nil in H. Qed.

(** Every group but the last holds exactly [n] tokens. *)
Lemma batches_from_full fuel n tokens i batch :
  batches_from fuel n tokens !! i = Some batch →
  (S i < length (batches_from fuel n tokens))%nat →
  length batch = n.
Proof.
  revert tokens i.
  induction fuel as [|fuel IH]; intros tokens i Hi Hnext;
    first by destruct tokens.
  destruct tokens as [|t tokens]; first done.
  rewrite batches_from_cons in Hi, Hnext.
  destruct i as [|i].
  - injection Hi as <-. rewrite length_take.
    assert (drop n (t :: tokens) ≠ []) as Hrest.
    { apply (batches_from_not_nil fuel n). intros Hnil.
      rewrite Hnil in Hnext. cbn in Hnext. lia. }
    assert (length (drop n (t :: tokens)) ≠ 0)%nat as Hlen
      by by destruct (drop n (t :: tokens)).
    rewrite length_drop in Hlen. lia.
  - apply (IH (drop n (t :: tokens)) i); first done.
    cbn [length] in Hnext. lia.
Qed.

(** The last message that went out says "final" exactly when the number
    of tokens is not a multiple of four. *)
Lemma terminal_flush_mark fuel tokens msgs m :
  (length tokens ≤ fuel)%nat →
  mapM flush_of (batches_from fuel 4 tokens) = Some msgs →
  last msgs = Some m →
  StreamingNb.more_body m = (length tokens mod 4 =? 0)%nat.
Proof.
  revert tokens msgs m.
  induction fuel as [|fuel IH]; intros tokens msgs m Hlen Hmsgs Hlast.
  { destruct tokens; last (cbn in Hlen; lia). by injection Hmsgs as <-. }
  destruct tokens as [|t tokens]; first by injection Hmsgs as <-.
  rewrite batches_from_cons in Hmsgs.
  apply mapM_cons_Some in Hmsgs as (m0 & more & Hm & Hmore & ->).
  apply flush_of_Some in Hm as (encoded & Henc & ->).
  destruct tokens as [|t2 [|t3 [|t4 rest]]].
  1-3: cbn [drop] in Hmore; rewrite batches_from_nil in Hmore;
       injection Hmore as <-; by injection Hlast as <-.
  change (drop 4 (t :: t2 :: t3 :: t4 :: rest)) with rest in Hmore.
  destruct rest as [|t5 rest].
  - rewrite batches_from_nil in Hmore. injection Hmore as <-.
    by injection Hlast as <-.
  - destruct fuel as [|fuel']; first (cbn in Hlen; lia).
    rewrite batches_from_cons in Hmore.
    apply mapM_cons_Some in Hmore as Hsplit.
    destruct Hsplit as (m1 & more' & _ & _ & ->).
    rewrite last_cons_cons in Hlast.
    rewrite (IH (t5 :: rest) (m1 :: more') m);
      [| cbn in Hlen |- *; lia | by rewrite batches_from_cons | done].
    change (length (t :: t2 :: t3 :: t4 :: t5 :: rest))
      with (4 + length (t5 :: rest))%nat.
    f_equal. by rewrite <- (Nat.Div0.add_mod_idemp_l 4), Nat.Div0.mod_same.
Qed.

Lemma utf8_encode_app s1 s2 :
  utf8_encode (s1 ++ s2)
  = match utf8_encode s1, utf8_encode s2 with
    | Some b1, Some b2 => Some (b1 ++ b2)
    | _, _ => None
    end.
Proof.
  induction s1 as [|c s1 IH]; cbn [app utf8_encode].
  - by destruct (utf8_encode s2).
  - rewrite IH. destruct (utf8_encode_char c) as [bc|]; last done.
    destruct (utf8_encode s1) as [b1|], (utf8_encode s2) as [b2|]; try done.
    by rewrite app_assoc.
Qed.

Lemma encodable_join (batch : list str) :
  Forall encodable batch → encodable (join batch).
Proof.
  unfold encodable, join. induction 1 as [|t batch [bt Ht] _ [bb Hb]].
  - by eexists.
  - cbn [concat]. rewrite utf8_encode_app, Ht, Hb. by eexists.
Qed.

Lemma batches_from_encodable fuel n tokens :
  Forall encodable tokens →
  Forall (λ batch, is_Some (flush_of batch)) (batches_from fuel n tokens).
Proof.
  revert tokens. induction fuel as [|fuel IH]; intros tokens Henc;
    first by destruct tokens.
  destruct tokens as [|t tokens]; first done.
  rewrite batches_from_cons. constructor.
  - destruct (encodable_join (take n (t :: tokens))) as [encoded Hencoded];
      first by apply Forall_take.
    unfold flush_of. rewrite Hencoded. by eexists.
  - apply IH. by apply Forall_drop.
Qed.

(** The claim of C2 fails as stated: for the four tokens a, b, c, d the
    coroutine sends the single flush [abcd] marked [more_body = True],
    so the last flush on the wire is not marked final. *)
Lemma terminal_full_batch_is_marked_more :
  StreamingNb.flushes
    (StreamingNb._prompt_tokens (map lit ["a"; "b"; "c"; "d"]%string))
  = [http_body ["a"; "b"; "c"; "d"]%byte true]
  ∧ ¬ (∀ tokens m,
         last (StreamingNb.flushes (StreamingNb._prompt_tokens tokens))
         = Some m →
         StreamingNb.more_body m = false).
Proof.
  split; first done.
  intros H.
  by specialize (H (map lit ["a"; "b"; "c"; "d"]%string)
                   (http_body ["a"; "b"; "c"; "d"]%byte true) eq_refl).
Qed.

(** C2, amended: for tokens that encode as UTF-8 the coroutine runs to
    its end and sends one flush per group of the token sequence cut in
    order into groups of four; every flush carries the bytes of its
    joined group; every group but the last holds four tokens; a flush is
    marked [more_body = True] exactly when its group holds four tokens,
    so the remainder flush, and only it, is marked [more_body = False],
    and the last flush on the wire is marked final exactly when the
    number of tokens is not a multiple of four. *)
Theorem full_batches_more_remainder_final (tokens : list str) :
  Forall encodable tokens →
  ∃ msgs : list StreamingNb.Message,
    StreamingNb.flushes (StreamingNb._prompt_tokens tokens) = msgs
    ∧ outcome (StreamingNb._prompt_tokens tokens)
        {| StreamingNb.buffer := []; StreamingNb.sent := [] |} = Ok tt
    ∧ concat (batches 4 tokens) = tokens
    ∧ Forall (λ batch, 0 < length batch ≤ 4)%nat (batches 4 tokens)
    ∧ (∀ i batch,
         batches 4 tokens !! i = Some batch →
         (S i < length (batches 4 tokens))%nat → length batch = 4%nat)
    ∧ Forall2
        (λ batch m,
           StreamingNb.type m = "http.response.body"%string
           ∧ utf8_encode (join batch) = Some (StreamingNb.body m)
           ∧ StreamingNb.more_body m = (length batch =? 4)%nat)
        (batches 4 tokens) msgs
    ∧ (∀ m, last msgs = Some m →
            StreamingNb.more_body m = (length tokens mod 4 =? 0)%nat).
Proof.
  intros Henc.
  destruct (proj2 (mapM_is_Some flush_of (batches 4 tokens))) as [msgs Hmsgs];
    first by apply batches_from_encodable.
  destruct (prompt_tokens_flushes tokens msgs Hmsgs) as [Hsent Hok].
  exists msgs. repeat split; try done.
  - apply batches_concat.
  - apply batches_from_sizes. lia.
  - intros i batch. apply batches_from_full.
  - apply mapM_Some in Hmsgs. eapply Forall2_impl; first exact Hmsgs.
    intros batch m (encoded & Hencoded & ->)%flush_of_Some. by repeat split.
  - intros m Hlast. by eapply (terminal_flush_mark (length tokens)).
Qed.

Lemma full_batches_more_remainder_final_witness :
  ∃ msgs : list StreamingNb.Message,
    StreamingNb.flushes (StreamingNb._prompt_tokens abcde) = msgs
    ∧ outcome (StreamingNb._prompt_tokens abcde)
        {| StreamingNb.buffer := []; StreamingNb.sent := [] |} = Ok tt
    ∧ concat (batches 4 abcde) = abcde
    ∧ Forall (λ batch, 0 < length batch ≤ 4)%nat (batches 4 abcde)
    ∧ (∀ i batch,
         batches 4 abcde !! i = Some batch →
         (S i < length (batches 4 abcde))%nat → length batch = 4%nat)
    ∧ Forall2
        (λ batch m,
           StreamingNb.type m = "http.response.body"%string
           ∧ utf8_encode (join batch) = Some (StreamingNb.body m)
           ∧ StreamingNb.more_body m = (length batch =? 4)%nat)
        (batches 4 abcde) msgs
    ∧ (∀ m, last msgs = Some m →
            StreamingNb.more_body m = (length abcde mod 4 =? 0)%nat).
Proof.
  apply (full_batches_more_remainder_final abcde).
  repeat constructor; by eexists.
Defined.

(** The flushes of the streaming example: [abcd] marked "more", then [e]
    marked "final". *)
Lemma abcde_flushes :
  StreamingNb.flushes (StreamingNb._prompt_tokens abcde)
  = [http_body ["a"; "b"; "c"; "d"]%byte true; http_body ["e"]%byte false].
Proof. done. Qed.

(** Chunk boundaries matter below the text level: the two bytes of one
    character decode when they arrive in one chunk and raise when they
    arrive in two. *)
Lemma split_character_raises :
  outcome (StreamingNb.process_streaming_response checked
             [["195"; "169"]%byte]) (fresh [] []) = Ok tt
  ∧ outcome (StreamingNb.process_streaming_response checked
               [["195"]%byte; ["169"]%byte]) (fresh [] [])
    = Raise UnicodeDecodeError.
Proof. done. Qed.

(** * The rest of the two notebooks *)

(** ** The codec: what is encoded decodes *)

Ltac euclid := zify; Z.to_euclidean_division_equations; lia.

Ltac bool_hyps :=
  repeat match goal with
  | H : _ && _ = true |- _ => apply andb_true_iff in H as [? ?]
  | H : _ && _ = false |- _ => apply andb_false_iff in H as [?|?]
  | H : (_ <? _) = true |- _ => apply N.ltb_lt in H
  | H : (_ <? _) = false |- _ => apply N.ltb_ge in H
  | H : (_ <=? _) = true |- _ => apply N.leb_le in H
  | H : (_ <=? _) = false |- _ => apply N.leb_gt in H
  | H : (_ =? _) = true |- _ => apply N.eqb_eq in H
  | H : (_ =? _) = false |- _ => apply N.eqb_neq in H
  end.

Lemma to_N_byte_of n : n < 256 → Byte.to_N (byte_of n) = n.
Proof.
  intros Hn. unfold byte_of.
  destruct (Byte.of_N n) as [b|] eqn:Hb.
  - by apply Byte.to_of_N.
  - apply Byte.of_N_None_iff in Hb. lia.
Qed.

Lemma land_ones_mod n :
  N.land n 63 = n mod 64 ∧ N.land n 31 = n mod 32
  ∧ N.land n 15 = n mod 16 ∧ N.land n 7 = n mod 8.
Proof.
  change 63 with (N.ones 6). change 31 with (N.ones 5).
  change 15 with (N.ones 4). change 7 with (N.ones 3).
  by rewrite !N.land_ones.
Qed.

Lemma to_N_tail_byte n : Byte.to_N (tail_byte n) = 128 + n mod 64.
Proof.
  unfold tail_byte. rewrite (proj1 (land_ones_mod n)).
  apply to_N_byte_of. euclid.
Qed.

Lemma payload_tail_byte n : payload (tail_byte n) = n mod 64.
Proof.
  unfold payload. rewrite to_N_tail_byte, (proj1 (land_ones_mod _)). euclid.
Qed.

Lemma between_tail_byte n : between 128 191 (Byte.to_N (tail_byte n)) = true.
Proof.
  rewrite to_N_tail_byte. unfold between.
  apply andb_true_iff. rewrite !N.leb_le. euclid.
Qed.

Lemma shift_div c :
  N.shiftr c 6 = c / 64 ∧ N.shiftr c 12 = c / 4096
  ∧ N.shiftr c 18 = c / 262144.
Proof. by rewrite !N.shiftr_div_pow2. Qed.

Lemma shift_mul c :
  N.shiftl c 6 = c * 64 ∧ N.shiftl c 12 = c * 4096
  ∧ N.shiftl c 18 = c * 262144.
Proof. by rewrite !N.shiftl_mul_pow2. Qed.

Lemma utf8_decode_encode_char c encoded rest :
  utf8_encode_char c = Some encoded →
  utf8_decode (encoded ++ rest) = cons c <$> utf8_decode rest.
Proof.
  unfold utf8_encode_char.
  destruct (shift_div c) as (Hs6 & Hs12 & Hs18). rewrite Hs6, Hs12, Hs18.
  destruct (c <? 128) eqn:H1; bool_hyps.
  { intros [= <-]. cbn [app utf8_decode].
    rewrite to_N_byte_of by lia.
    by rewrite (proj2 (N.ltb_lt _ _) H1). }
  destruct (c <? 2048) eqn:H2; bool_hyps.
  { intros [= <-]. cbn [app utf8_decode].
    rewrite to_N_byte_of by euclid.
    replace (192 + c / 64 <? 128) with false by (symmetry; apply N.ltb_ge; lia).
    replace (between 194 223 (192 + c / 64)) with true
      by (symmetry; unfold between; apply andb_true_iff; rewrite !N.leb_le; euclid).
    rewrite between_tail_byte, payload_tail_byte.
    rewrite (proj1 (proj2 (land_ones_mod _))), (proj1 (shift_mul _)).
    do 2 f_equal. euclid. }
  destruct (between 55296 57343 c) eqn:H3; first done.
  assert (c < 55296 ∨ 57343 < c) as Hsur
    by (unfold between in H3; bool_hyps; lia).
  clear H3. destruct (c <? 65536) eqn:H4; bool_hyps.
  { intros [= <-]. cbn [app utf8_decode].
    rewrite to_N_byte_of by euclid.
    replace (224 + c / 4096 <? 128) with false
      by (symmetry; apply N.ltb_ge; lia).
    replace (between 194 223 (224 + c / 4096)) with false
      by (symmetry; unfold between; apply andb_false_iff; right;
          apply N.leb_gt; lia).
    replace (between 224 239 (224 + c / 4096)) with true
      by (symmetry; unfold between; apply andb_true_iff;
          rewrite !N.leb_le; euclid).
    rewrite !to_N_tail_byte, !payload_tail_byte.
    match goal with
    | |- context [between ?lo ?hi ?n && ?b] =>
        replace (between lo hi n && b) with true
    end.
    2:{ symmetry. unfold between. rewrite !andb_true_iff, !N.leb_le.
        destruct (N.eqb_spec (224 + c / 4096) 224),
                 (N.eqb_spec (224 + c / 4096) 237); euclid. }
    rewrite (proj1 (proj2 (proj2 (land_ones_mod _)))).
    destruct (shift_mul ((c / 64) `mod` 64)) as (-> & _).
    destruct (shift_mul ((224 + c / 4096) `mod` 16)) as (_ & -> & _).
    do 2 f_equal. euclid. }
  destruct (c <? 1114112) eqn:H5; bool_hyps; last done.
  intros [= <-]. cbn [app utf8_decode].
  rewrite to_N_byte_of by euclid.
  replace (240 + c / 262144 <? 128) with false
    by (symmetry; apply N.ltb_ge; lia).
  replace (between 194 223 (240 + c / 262144)) with false
    by (symmetry; unfold between; apply andb_false_iff; right;
        apply N.leb_gt; lia).
  replace (between 224 239 (240 + c / 262144)) with false
    by (symmetry; unfold between; apply andb_false_iff; right;
        apply N.leb_gt; lia).
  replace (between 240 244 (240 + c / 262144)) with true
    by (symmetry; unfold between; apply andb_true_iff;
        rewrite !N.leb_le; euclid).
  rewrite !to_N_tail_byte, !payload_tail_byte.
  match goal with
  | |- context [between ?lo ?hi ?n && ?b1 && ?b2] =>
      replace (between lo hi n && b1 && b2) with true
  end.
  2:{ symmetry. unfold between. rewrite !andb_true_iff, !N.leb_le.
      destruct (N.eqb_spec (240 + c / 262144) 240),
               (N.eqb_spec (240 + c / 262144) 244); euclid. }
  rewrite (proj2 (proj2 (proj2 (land_ones_mod _)))).
  destruct (shift_mul ((c / 64) `mod` 64)) as (-> & _).
  destruct (shift_mul ((c / 4096) `mod` 64)) as (_ & -> & _).
  destruct (shift_mul ((240 + c / 262144) `mod` 8)) as (_ & _ & ->).
  do 2 f_equal. euclid.
Qed.

Lemma utf8_decode_encode s encoded :
  utf8_encode s = Some encoded → utf8_decode encoded = Some s.
Proof.
  revert encoded. induction s as [|c s IH]; intros encoded.
  - by intros [= <-].
  - cbn [utf8_encode].
    destruct (utf8_encode_char c) as [bc|] eqn:Hc; last done.
    destruct (utf8_encode s) as [bs|]; last done.
    intros [= <-]. erewrite utf8_decode_encode_char by done.
    by rewrite (IH bs).
Qed.

(** X10: a text that [str.encode("utf-8")] accepts decodes back to
    itself, and the bytes of two encoded texts put together decode to
    the two texts put together. *)
Theorem utf8_round_trip (s : str) (encoded : bytes) :
  utf8_encode s = Some encoded →
  utf8_decode encoded = Some s
  ∧ (∀ (s' : str) (encoded' : bytes),
       utf8_encode s' = Some encoded' →
       utf8_decode (encoded ++ encoded') = Some (s ++ s')).
Proof.
  intros Hs. split; first by apply utf8_decode_encode.
  intros s' encoded' Hs'. apply utf8_decode_encode.
  by rewrite utf8_encode_app, Hs, Hs'.
Qed.

Lemma utf8_round_trip_witness :
  utf8_decode ["h"; "195"; "169"]%byte = Some [104; 233].
Proof.
  exact (proj1 (utf8_round_trip [104; 233] ["h"; "195"; "169"]%byte eq_refl)).
Defined.

(** ** More on the receiving side *)

Lemma decoded_prefix_app r1 r2 :
  decoded_prefix (r1 ++ r2)
  = if all_decodable r1 then decoded_prefix r1 ++ decoded_prefix r2
    else decoded_prefix r1.
Proof.
  unfold all_decodable. induction r1 as [|chunk r1 IH]; first done.
  cbn [app decoded_prefix forallb].
  destruct (utf8_decode chunk); last done.
  rewrite IH. cbn [andb]. by destruct (forallb _ r1).
Qed.

Lemma all_decodable_app r1 r2 :
  all_decodable (r1 ++ r2) = all_decodable r1 && all_decodable r2.
Proof. apply forallb_app. Qed.

(** X6: receiving the chunks of two responses one after the other is
    receiving their chunks as one response: state and outcome agree,
    also when a chunk of the first fails to decode and the second is
    never looked at. *)
Theorem process_streaming_response_app
    (cfg : Config) (r1 r2 : list bytes) (e : StreamingNb.StreamPrompting) :
  StreamingNb.process_streaming_response cfg (r1 ++ r2) e
  = (StreamingNb.process_streaming_response cfg r1 ;;
     StreamingNb.process_streaming_response cfg r2) e.
Proof.
  unfold bind. rewrite !process_streaming_response_run.
  rewrite decoded_prefix_app, all_decodable_app.
  destruct (all_decodable r1); last done.
  cbn [andb].
  cbn [with_completion StreamingNb.completion StreamingNb.roles
       StreamingNb.messages text_of].
  by rewrite map_app, concat_app, app_assoc.
Qed.

(** X7: at the first chunk that is not UTF-8 the method raises
    [UnicodeDecodeError]; the completion then holds the text of the
    chunks before it, newlines removed, and the chunks after it are not
    looked at. *)
Theorem undecodable_chunk_raises
    (cfg : Config) (e : StreamingNb.StreamPrompting)
    (good : list bytes) (bad : bytes) (rest : list bytes) (texts : list str) :
  mapM utf8_decode good = Some texts →
  utf8_decode bad = None →
  StreamingNb.process_streaming_response cfg (good ++ bad :: rest) e
  = (with_completion e
       (Some (text_of (StreamingNb.completion e)
              ++ concat (map strip_newlines texts))),
     Raise UnicodeDecodeError).
Proof.
  intros [Hpre Hall]%mapM_decoded Hbad.
  rewrite process_streaming_response_run.
  rewrite decoded_prefix_app, all_decodable_app, Hall, Hpre.
  cbn [decoded_prefix all_decodable forallb andb]. rewrite Hbad.
  by rewrite app_nil_r.
Qed.

(** X8: an envelope whose completion is [None] is treated as one whose
    completion is the empty string. *)
Theorem none_completion_counts_as_empty
    (cfg : Config) (response : list bytes) (e : StreamingNb.StreamPrompting) :
  StreamingNb.completion e = None →
  StreamingNb.process_streaming_response cfg response e
  = StreamingNb.process_streaming_response cfg response
      (with_completion e (Some (lit ""))).
Proof.
  intros Hnone. rewrite !process_streaming_response_run. by rewrite Hnone.
Qed.

Lemma utf8_decode_ascii (bs : bytes) :
  Forall (λ b, Byte.to_N b < 128) bs →
  utf8_decode bs = Some (map Byte.to_N bs).
Proof.
  induction 1 as [|b bs Hb _ IH]; first done.
  cbn [utf8_decode map]. rewrite (proj2 (N.ltb_lt _ _) Hb).
  by rewrite IH.
Qed.

Lemma ascii_chunks (response : list bytes) :
  Forall (λ b, Byte.to_N b < 128) (concat response) →
  mapM utf8_decode response = Some (map (map Byte.to_N) response).
Proof.
  intros Hascii. apply mapM_Some.
  induction response as [|chunk response IH]; first by constructor.
  cbn [concat] in Hascii. apply Forall_app in Hascii as [Hc Hr].
  constructor; [by apply utf8_decode_ascii | by apply IH].
Qed.

(** X9: when every byte received is ASCII, how the bytes are cut into
    chunks makes no difference: the method never raises and appends the
    characters of the whole byte stream that are not newlines. *)
Theorem ascii_chunking_is_irrelevant
    (cfg : Config) (e : StreamingNb.StreamPrompting) (r1 r2 : list bytes) :
  Forall (λ b, Byte.to_N b < 128) (concat r1) →
  concat r1 = concat r2 →
  StreamingNb.process_streaming_response cfg r1 e
  = StreamingNb.process_streaming_response cfg r2 e
  ∧ StreamingNb.process_streaming_response cfg r1 e
    = (with_completion e
         (Some (text_of (StreamingNb.completion e)
                ++ strip_newlines (map Byte.to_N (concat r1)))), Ok tt).
Proof.
  intros Hascii Hsame.
  assert (∀ r, Forall (λ b, Byte.to_N b < 128) (concat r) →
    StreamingNb.process_streaming_response cfg r e
    = (with_completion e
         (Some (text_of (StreamingNb.completion e)
                ++ strip_newlines (map Byte.to_N (concat r)))), Ok tt)) as Hrun.
  { intros r [Hpre Hall]%ascii_chunks%mapM_decoded.
    rewrite process_streaming_response_run, Hpre, Hall.
    rewrite <- strip_newlines_concat.
    replace (concat (map (map Byte.to_N) r)) with (map Byte.to_N (concat r));
      first done.
    clear. induction r as [|chunk r IH]; first done.
    cbn [map concat]. by rewrite map_app, IH. }
  split; last by apply Hrun.
  rewrite (Hrun r1), (Hrun r2), Hsame; first done.
  - by rewrite <- Hsame.
  - done.
Qed.

Lemma undecodable_chunk_raises_witness :
  StreamingNb.process_streaming_response checked
    ([["a"]%byte] ++ ["195"]%byte :: [["b"]%byte]) (fresh [] [])
  = (with_completion (fresh [] []) (Some (lit "a")), Raise UnicodeDecodeError).
Proof.
  exact (undecodable_chunk_raises checked (fresh [] []) [["a"]%byte]
           ["195"]%byte [["b"]%byte] [[97]] eq_refl eq_refl).
Defined.

Lemma none_completion_counts_as_empty_witness :
  StreamingNb.process_streaming_response checked [["a"]%byte]
    {| StreamingNb.roles := []; StreamingNb.messages := [];
       StreamingNb.completion := None |}
  = StreamingNb.process_streaming_response checked [["a"]%byte]
      (fresh [] []).
Proof.
  exact (none_completion_counts_as_empty checked [["a"]%byte]
           {| StreamingNb.roles := []; StreamingNb.messages := [];
              StreamingNb.completion := None |} eq_refl).
Defined.

Lemma ascii_chunking_is_irrelevant_witness :
  StreamingNb.process_streaming_response checked
    [["a"; "b"]%byte; ["c"]%byte] (fresh [] [])
  = StreamingNb.process_streaming_response checked
      [["a"]%byte; ["b"; "c"]%byte] (fresh [] []).
Proof.
  refine (proj1 (ascii_chunking_is_irrelevant checked (fresh [] [])
                   [["a"; "b"]%byte; ["c"]%byte]
                   [["a"]%byte; ["b"; "c"]%byte] _ eq_refl)).
  cbn. repeat constructor; reflexivity.
Defined.

(** ** More on the sending side *)

Lemma bind_raise {S A B} (c : M S A) (k : A → M S B) s s' e :
  c s = (s', Raise e) → bind c k s = (s', Raise e).
Proof. unfold bind. by intros ->. Qed.

Lemma batch_loop_full_raise t1 t2 t3 t4 rest s :
  utf8_encode (join [t1; t2; t3; t4]) = None →
  batch_loop (t1 :: t2 :: t3 :: t4 :: rest)
    {| StreamingNb.buffer := []; StreamingNb.sent := s |}
  = ({| StreamingNb.buffer := [t1; t2; t3; t4]; StreamingNb.sent := s |},
     Raise UnicodeEncodeError).
Proof.
  intros Henc. unfold batch_loop. cbn [for_each].
  do 3 (erewrite bind_ok by reflexivity).
  unfold bind at 1. cbn -[utf8_encode join]. by rewrite Henc.
Qed.

Lemma flush_of_None batch :
  flush_of batch = None → utf8_encode (join batch) = None.
Proof. unfold flush_of. by destruct (utf8_encode (join batch)). Qed.

(** The coroutine on any token sequence, from an empty buffer. *)
Lemma batch_loop_run fuel tokens s :
  (length tokens ≤ fuel)%nat →
  ∃ left_over,
    (batch_loop tokens ;; final_flush)
      {| StreamingNb.buffer := []; StreamingNb.sent := s |}
    = ({| StreamingNb.buffer := left_over;
          StreamingNb.sent := s ++ flushed_prefix (batches_from fuel 4 tokens) |},
       if all_flushable (batches_from fuel 4 tokens) then Ok tt
       else Raise UnicodeEncodeError).
Proof.
  revert tokens s.
  induction fuel as [|fuel IH]; intros tokens s Hlen.
  { destruct tokens; last (cbn in Hlen; lia).
    exists []. by rewrite app_nil_r. }
  destruct tokens as [|t tokens].
  { exists []. by rewrite app_nil_r. }
  rewrite batches_from_cons.
  cbn [flushed_prefix all_flushable forallb].
  destruct (flush_of (take 4 (t :: tokens))) as [m|] eqn:Hm.
  - apply flush_of_Some in Hm as (encoded & Henc & ->).
    destruct (decide (length (t :: tokens) < 4)%nat) as [Hshort|Hlong].
    + rewrite take_ge in Henc |- * by lia.
      rewrite drop_ge, batches_from_nil by lia.
      replace (length (t :: tokens) =? 4)%nat with false
        by (symmetry; apply Nat.eqb_neq; lia).
      eexists. by apply remainder_flush.
    + destruct tokens as [|t2 [|t3 [|t4 rest]]]; try (cbn in Hlong; lia).
      change (take 4 (t :: t2 :: t3 :: t4 :: rest)) with [t; t2; t3; t4]
        in Henc |- *.
      change (drop 4 (t :: t2 :: t3 :: t4 :: rest)) with rest.
      destruct (IH rest (s ++ [http_body encoded true]))
        as [left_over Hrun]; first (cbn in Hlen; lia).
      exists left_over. unfold bind at 1.
      erewrite batch_loop_full by exact Henc.
      unfold bind at 1 in Hrun. rewrite Hrun.
      by rewrite <- app_assoc.
  - apply flush_of_None in Hm. rewrite app_nil_r.
    destruct (decide (length (t :: tokens) < 4)%nat) as [Hshort|Hlong].
    + rewrite take_ge in Hm by lia. eexists.
      erewrite bind_ok by by apply batch_loop_short.
      unfold final_flush, bind, get. cbn [StreamingNb.buffer truthy].
      by rewrite Hm.
    + destruct tokens as [|t2 [|t3 [|t4 rest]]]; try (cbn in Hlong; lia).
      change (take 4 (t :: t2 :: t3 :: t4 :: rest)) with [t; t2; t3; t4]
        in Hm.
      eexists. by erewrite bind_raise by by apply batch_loop_full_raise.
Qed.

Lemma prompt_tokens_outcome (tokens : list str) :
  StreamingNb.flushes (StreamingNb._prompt_tokens tokens)
  = flushed_prefix (batches 4 tokens)
  ∧ outcome (StreamingNb._prompt_tokens tokens) started
    = (if all_flushable (batches 4 tokens) then Ok tt
       else Raise UnicodeEncodeError).
Proof.
  destruct (batch_loop_run (length tokens) tokens []) as [left_over Hrun];
    first done.
  unfold StreamingNb.flushes, exec, outcome, started.
  rewrite _prompt_tokens_unfold.
  erewrite bind_ok by reflexivity. cbn [StreamingNb.sent].
  by rewrite Hrun.
Qed.

Lemma encodable_flushes tokens :
  Forall encodable tokens →
  ∃ msgs,
    Forall2 (λ group m, flush_of group = Some m) (batches 4 tokens) msgs
    ∧ StreamingNb.flushes (StreamingNb._prompt_tokens tokens) = msgs.
Proof.
  intros Henc.
  destruct (proj2 (mapM_is_Some flush_of (batches 4 tokens))) as [msgs Hmsgs];
    first by apply batches_from_encodable.
  exists msgs. split; first by apply mapM_Some.
  by apply prompt_tokens_flushes.
Qed.

Lemma bodies_encode groups msgs :
  Forall2 (λ group m, flush_of group = Some m) groups msgs →
  utf8_encode (concat (concat groups))
  = Some (concat (map StreamingNb.body msgs)).
Proof.
  induction 1 as [|group m groups msgs Hm _ IH]; first done.
  apply flush_of_Some in Hm as (encoded & Henc & ->).
  cbn [concat map]. rewrite concat_app, utf8_encode_app. unfold join in Henc.
  by rewrite Henc, IH.
Qed.

Lemma bodies_decode groups msgs :
  Forall2 (λ group m, flush_of group = Some m) groups msgs →
  mapM utf8_decode (map StreamingNb.body msgs) = Some (map join groups).
Proof.
  intros H. apply mapM_Some.
  induction H as [|group m groups msgs Hm _ IH]; first by constructor.
  apply flush_of_Some in Hm as (encoded & Henc & ->).
  cbn [map]. constructor; last done.
  by apply utf8_decode_encode.
Qed.

(** X3: for tokens that encode, the bodies of the flushes put together
    are the UTF-8 bytes of the tokens put together: nothing is lost,
    repeated or reordered on the wire. *)
Theorem wire_is_encoded_text (tokens : list str) :
  Forall encodable tokens →
  utf8_encode (join tokens)
  = Some (concat (map StreamingNb.body
                    (StreamingNb.flushes (StreamingNb._prompt_tokens tokens)))).
Proof.
  intros (msgs & Hmsgs & ->)%encodable_flushes.
  rewrite <- (bodies_encode _ _ Hmsgs). unfold join.
  by rewrite batches_concat.
Qed.

Lemma ceil4_step n :
  (0 < n)%nat → ((n + 3) / 4 = S ((n - 4 + 3) / 4))%nat.
Proof.
  intros Hn. destruct (decide (n < 4)%nat) as [Hshort|Hlong].
  - destruct n as [|[|[|[|?]]]]; try done; lia.
  - assert (n + 3 = (n - 4 + 3) + 1 * 4)%nat as -> by lia.
    rewrite Nat.div_add by lia. lia.
Qed.

Lemma batches_from_length fuel tokens :
  (length tokens ≤ fuel)%nat →
  length (batches_from fuel 4 tokens) = ((length tokens + 3) / 4)%nat.
Proof.
  revert tokens. induction fuel as [|fuel IH]; intros tokens Hlen.
  { by destruct tokens; last (cbn in Hlen; lia). }
  destruct tokens as [|t tokens]; first done.
  rewrite batches_from_cons. cbn [length] in Hlen |- *.
  rewrite IH by (rewrite length_drop; cbn [length]; lia).
  rewrite length_drop. cbn [length].
  rewrite (ceil4_step (S (length tokens))) by lia. done.
Qed.

(** X4: for tokens that encode, the coroutine sends one flush per
    started group of four tokens, and so none exactly when there is no
    token. *)
Theorem flush_count (tokens : list str) :
  Forall encodable tokens →
  length (StreamingNb.flushes (StreamingNb._prompt_tokens tokens))
  = ((length tokens + 3) / 4)%nat
  ∧ (StreamingNb.flushes (StreamingNb._prompt_tokens tokens) = []
     ↔ tokens = []).
Proof.
  intros (msgs & Hmsgs & ->)%encodable_flushes.
  assert (length msgs = ((length tokens + 3) / 4)%nat) as Hcount.
  { rewrite <- (Forall2_length _ _ _ Hmsgs). by apply batches_from_length. }
  split; first done. split.
  - intros ->. destruct tokens as [|t tokens]; first done.
    cbn [length] in Hcount.
    rewrite (ceil4_step (S (length tokens))) in Hcount by lia. done.
  - intros ->. by destruct msgs.
Qed.

Lemma join_groups (groups : list (list str)) :
  concat (map join groups) = join (concat groups).
Proof.
  unfold join. induction groups as [|group groups IH]; first done.
  cbn [map concat]. by rewrite concat_app, IH.
Qed.

Lemma streamed_completion_run
    (cfg : Config) (e : StreamingNb.StreamPrompting) (tokens : list str) :
  Forall encodable tokens →
  StreamingNb.process_streaming_response cfg
    (map StreamingNb.body
       (StreamingNb.flushes (StreamingNb._prompt_tokens tokens))) e
  = (with_completion e
       (Some (text_of (StreamingNb.completion e)
              ++ strip_newlines (join tokens))), Ok tt).
Proof.
  intros (msgs & Hmsgs & ->)%encodable_flushes.
  destruct (mapM_decoded _ _ (bodies_decode _ _ Hmsgs)) as [Hpre Hall].
  rewrite process_streaming_response_run, Hpre, Hall.
  by rewrite <- strip_newlines_concat, join_groups, batches_concat.
Qed.

Lemma flushed_prefix_stops (before : list (list str)) bad after :
  Forall (λ group, is_Some (flush_of group)) before →
  flush_of bad = None →
  length (flushed_prefix (before ++ bad :: after)) = length before
  ∧ all_flushable (before ++ bad :: after) = false.
Proof.
  unfold all_flushable. intros Hbefore Hbad.
  induction Hbefore as [|group before [m Hm] _ [IH1 IH2]].
  - cbn. by rewrite Hbad.
  - cbn [app flushed_prefix forallb]. rewrite Hm. cbn [length andb].
    by rewrite IH1, IH2.
Qed.

(** X5: on any token sequence the coroutine sends the flushes of the
    groups of four up to the first group whose joined text does not
    encode, and it ends normally exactly when every group encodes; when
    a group does not encode, the flushes of the groups before it have
    gone out, [UnicodeEncodeError] is raised and nothing more is sent. *)
Theorem prompt_tokens_run (tokens : list str) :
  StreamingNb.flushes (StreamingNb._prompt_tokens tokens)
  = flushed_prefix (batches 4 tokens)
  ∧ outcome (StreamingNb._prompt_tokens tokens) started
    = (if all_flushable (batches 4 tokens) then Ok tt
       else Raise UnicodeEncodeError)
  ∧ (∀ before bad after,
       batches 4 tokens = before ++ bad :: after →
       Forall (λ group, encodable (join group)) before →
       utf8_encode (join bad) = None →
       length (StreamingNb.flushes (StreamingNb._prompt_tokens tokens))
       = length before
       ∧ outcome (StreamingNb._prompt_tokens tokens) started
         = Raise UnicodeEncodeError).
Proof.
  destruct (prompt_tokens_outcome tokens) as [Hsent Hout].
  split; first done. split; first done.
  intros before bad after Hgroups Hbefore Hbad.
  rewrite Hsent, Hout, Hgroups.
  destruct (flushed_prefix_stops before bad after) as [Hlen Hall].
  - eapply Forall_impl; first exact Hbefore.
    intros group [encoded Henc]. unfold flush_of. rewrite Henc. by eexists.
  - unfold flush_of. by rewrite Hbad.
  - by rewrite Hlen, Hall.
Qed.

(** X1: what the coroutine sends for tokens that encode, received flush
    by flush, leaves the receiver with its earlier completion followed by
    the tokens put together without their newline characters, and raises
    nothing; when no token holds a newline the tokens arrive unchanged. *)
Theorem streamed_completion
    (cfg : Config) (e : StreamingNb.StreamPrompting) (tokens : list str) :
  Forall encodable tokens →
  StreamingNb.process_streaming_response cfg
    (map StreamingNb.body
       (StreamingNb.flushes (StreamingNb._prompt_tokens tokens))) e
  = (with_completion e
       (Some (text_of (StreamingNb.completion e)
              ++ strip_newlines (join tokens))), Ok tt)
  ∧ (Forall (λ token, newline ∉ token) tokens →
     StreamingNb.completion
       (exec (StreamingNb.process_streaming_response cfg
                (map StreamingNb.body
                   (StreamingNb.flushes (StreamingNb._prompt_tokens tokens))))
          e)
     = Some (text_of (StreamingNb.completion e) ++ join tokens)).
Proof.
  intros Henc. pose proof (streamed_completion_run cfg e tokens Henc) as Hrun.
  split; first done.
  intros Hclean. unfold exec. rewrite Hrun. cbn. do 2 f_equal.
  apply strip_newlines_id. unfold join.
  clear -Hclean.
  induction Hclean as [|t ts Ht _ IH]; first by intros ?%elem_of_nil.
  cbn [concat]. intros [?|?]%elem_of_app; done.
Qed.

Lemma abcde_encodable : Forall encodable abcde.
Proof. repeat constructor; by eexists. Defined.

Lemma streamed_completion_witness :
  StreamingNb.process_streaming_response checked
    (map StreamingNb.body
       (StreamingNb.flushes (StreamingNb._prompt_tokens abcde)))
    (fresh [] [])
  = (with_completion (fresh [] []) (Some (lit "abcde")), Ok tt).
Proof.
  exact (proj1 (streamed_completion checked (fresh [] []) abcde
                  abcde_encodable)).
Defined.

Lemma wire_is_encoded_text_witness :
  utf8_encode (join abcde)
  = Some (concat (map StreamingNb.body
                    (StreamingNb.flushes (StreamingNb._prompt_tokens abcde)))).
Proof. exact (wire_is_encoded_text abcde abcde_encodable). Defined.

Lemma flush_count_witness :
  length (StreamingNb.flushes (StreamingNb._prompt_tokens abcde)) = 2%nat.
Proof. exact (proj1 (flush_count abcde abcde_encodable)). Defined.

(** ** Construction and the streaming handler end to end *)

(** X11: both classes need [roles] and [messages]: construction raises
    a validation error when either is not supplied, whatever else is;
    otherwise the envelope holds the supplied values, and the supplied
    completion or the empty string. *)
Theorem init_requires_roles_and_messages
    (roles_arg messages_arg : option (list str)) (completion_arg : option str) :
  PromptingNb.__init__ roles_arg messages_arg completion_arg
  = match roles_arg, messages_arg with
    | Some roles, Some messages =>
        Ok {| PromptingNb.roles := roles;
              PromptingNb.messages := messages;
              PromptingNb.completion :=
                match completion_arg with
                | Some completion => completion
                | None => lit ""
                end |}
    | _, _ => Raise ValidationError
    end
  ∧ StreamingNb.__init__ roles_arg messages_arg completion_arg
    = match roles_arg, messages_arg with
      | Some roles, Some messages =>
          Ok {| StreamingNb.roles := roles;
                StreamingNb.messages := messages;
                StreamingNb.completion :=
                  Some match completion_arg with
                       | Some completion => completion
                       | None => lit ""
                       end |}
      | _, _ => Raise ValidationError
      end.
Proof.
  by destruct roles_arg, messages_arg, completion_arg.
Qed.

Section Echo.

Variable token_id : Type.
Variable tokenizer : str → list token_id.
Variable tokenizer_decode : token_id → str.

(** X2: on a request with a first message the handler returns a
    streamer and leaves the request as it is. When that message does not
    tokenize into exactly one token and its decoded tokens encode, a
    receiver fed the bodies of the streamer's flushes ends with its
    earlier completion followed by the decoded tokens, newlines removed;
    no other message of the request plays a part. When the message
    tokenizes into exactly one token, the squeezed ids cannot be
    iterated: the streamer raises [TypeError] and sends nothing. *)
Theorem handler_stream_reaches_client
    (cfg : Config) (server client : StreamingNb.StreamPrompting)
    (message : str) (others : list str) :
  StreamingNb.messages server = message :: others →
  ∃ response,
    StreamingNb.prompt token_id tokenizer tokenizer_decode server
    = (server, Ok response)
    ∧ (length (tokenizer message) ≠ 1%nat →
       Forall encodable (map tokenizer_decode (tokenizer message)) →
       StreamingNb.process_streaming_response cfg
         (map StreamingNb.body
            (StreamingNb.flushes (StreamingNb.token_streamer response)))
         client
       = (with_completion client
            (Some (text_of (StreamingNb.completion client)
                   ++ strip_newlines
                        (join (map tokenizer_decode (tokenizer message))))),
          Ok tt))
    ∧ (∀ id, tokenizer message = [id] →
             StreamingNb.token_streamer response started
             = (started, Raise TypeError)
             ∧ StreamingNb.flushes (StreamingNb.token_streamer response)
               = []).
Proof.
  intros Hm. eexists. split; [|split].
  - rewrite prompt_run, Hm. reflexivity.
  - intros Hlen Henc. cbn [StreamingNb.token_streamer].
    unfold StreamingNb._prompt.
    replace (StreamingNb.squeeze token_id (tokenizer message))
      with (StreamingNb.Vector token_id (tokenizer message))
      by by destruct (tokenizer message) as [|? [|? ?]].
    cbn [StreamingNb.model]. by apply streamed_completion_run.
  - intros id Hid. cbn [StreamingNb.token_streamer].
    unfold StreamingNb._prompt, StreamingNb.flushes. by rewrite Hid.
Qed.

End Echo.

Lemma handler_stream_reaches_client_witness :
  ∃ response,
    StreamingNb.prompt N char_tokenizer char_tokenizer_decode
      (fresh [lit "user"] [lit "hey"; lit "you"])
    = (fresh [lit "user"] [lit "hey"; lit "you"], Ok response)
    ∧ (length (char_tokenizer (lit "hey")) ≠ 1%nat →
       Forall encodable (map char_tokenizer_decode (char_tokenizer (lit "hey"))) →
       StreamingNb.process_streaming_response checked
         (map StreamingNb.body
            (StreamingNb.flushes (StreamingNb.token_streamer response)))
         (fresh [lit "user"] [lit "hey"; lit "you"])
       = (with_completion (fresh [lit "user"] [lit "hey"; lit "you"])
            (Some (text_of (Some (lit ""))
                   ++ strip_newlines
                        (join (map char_tokenizer_decode
                                 (char_tokenizer (lit "hey")))))), Ok tt))
    ∧ (∀ id, char_tokenizer (lit "hey") = [id] →
             StreamingNb.token_streamer response started
             = (started, Raise TypeError)
             ∧ StreamingNb.flushes (StreamingNb.token_streamer response)
               = []).
Proof.
  exact (handler_stream_reaches_client N char_tokenizer
           char_tokenizer_decode checked
           (fresh [lit "user"] [lit "hey"; lit "you"])
           (fresh [lit "user"] [lit "hey"; lit "you"])
           (lit "hey") [lit "you"] eq_refl).
Defined.

(** ** [extract_response_json] *)

Section Json.

Import StreamingJson.

Variable float_of_str : str → option float.
Variable int_of_str : str → option Z.

Lemma dict_get_set {V} (d : list (list N * V)) k v k' :
  dict_get (dict_set d k v) k'
  = if decide (k = k') then Some v else dict_get d k'.
Proof.
  induction d as [|[k0 v0] d IH]; cbn [dict_set dict_get].
  - by destruct (decide (k = k')).
  - destruct (decide (k0 = k)) as [->|Hne]; cbn [dict_get].
    + by destruct (decide (k = k')).
    + rewrite IH. destruct (decide (k0 = k')) as [->|]; last done.
      by rewrite decide_False.
Qed.

Lemma dict_set_keys {V} (d : list (list N * V)) k v :
  (dict_set d k v).*1 = if decide (k ∈ d.*1) then d.*1 else d.*1 ++ [k].
Proof.
  induction d as [|[k0 v0] d IH]; first done.
  cbn [dict_set]. destruct (decide (k0 = k)) as [->|Hne].
  - cbn [fmap list_fmap fst]. rewrite decide_True; [done | by left].
  - cbn [fmap list_fmap fst] in *. rewrite IH.
    destruct (decide (k ∈ d.*1)) as [Hin|Hnin].
    + rewrite decide_True; [done | by right].
    + rewrite decide_False; first done.
      intros [?|?]%elem_of_cons; done.
Qed.

Lemma dict_set_NoDup {V} (d : list (list N * V)) k v :
  NoDup d.*1 → NoDup (dict_set d k v).*1.
Proof.
  intros Hd. rewrite dict_set_keys. destruct (decide (k ∈ d.*1)); first done.
  apply NoDup_app. split; first done. split; last apply NoDup_singleton.
  by intros x Hx ->%list_elem_of_singleton.
Qed.

Lemma dict_get_Some_elem {V} (d : list (list N * V)) k v :
  dict_get d k = Some v → (k, v) ∈ d.
Proof.
  induction d as [|[k0 v0] d IH]; first done.
  cbn [dict_get]. destruct (decide (k0 = k)) as [->|].
  - intros [= ->]. by left.
  - intros ?. right. by apply IH.
Qed.

Lemma dict_get_None {V} (d : list (list N * V)) k :
  dict_get d k = None ↔ k ∉ d.*1.
Proof.
  induction d as [|[k0 v0] d IH]; first by split; [intros _ ?%elem_of_nil|].
  cbn [dict_get fmap list_fmap fst]. destruct (decide (k0 = k)) as [->|Hne].
  - split; first done. intros H. exfalso. apply H. by left.
  - rewrite IH. split.
    + intros H [?|?]%elem_of_cons; done.
    + intros H ?. apply H. by right.
Qed.

Lemma decode_headers_mapM raw headers :
  decode_headers raw headers
  = (λ pairs, fold_left (λ d kv, dict_set d kv.1 kv.2) pairs headers)
      <$> mapM decode_pair raw.
Proof.
  revert headers. induction raw as [|[k v] raw IH]; intros headers; first done.
  cbn [mapM decode_headers].
  assert (decode_pair (k, v)
          = match utf8_decode k with
            | Some key =>
                match utf8_decode v with
                | Some value => Some (key, value)
                | None => None
                end
            | None => None
            end) as ->
    by (unfold decode_pair; cbn [fst snd]; by destruct (utf8_decode k)).
  destruct (utf8_decode k) as [key|], (utf8_decode v) as [value|];
    try done.
  rewrite IH. cbn. by destruct (mapM decode_pair raw).
Qed.

Lemma fold_set_NoDup (pairs : list (str * str)) headers :
  NoDup headers.*1 →
  NoDup (fold_left (λ d kv, dict_set d kv.1 kv.2) pairs headers).*1.
Proof.
  revert headers. induction pairs as [|[k v] pairs IH]; intros headers Hd;
    first done.
  cbn [fold_left]. apply IH. by apply dict_set_NoDup.
Qed.

Lemma fold_set_get (pairs : list (str * str)) headers key :
  dict_get (fold_left (λ d kv, dict_set d kv.1 kv.2) pairs headers) key
  = match last_value pairs key with
    | Some value => Some value
    | None => dict_get headers key
    end.
Proof.
  unfold last_value. revert headers.
  induction pairs as [|[k v] pairs IH]; intros headers; first done.
  cbn [fold_left]. rewrite IH, dict_get_set. cbn [fst snd].
  destruct (decide (k = key)) as [->|Hne].
  - rewrite filter_cons_True by done.
    destruct (filter _ pairs) as [|kv rest] eqn:Hf; first done.
    rewrite last_cons_cons.
    destruct (last (kv :: rest)) eqn:Hl; first done.
    by apply last_None in Hl.
  - by rewrite filter_cons_False by done.
Qed.

(** X12: when every raw header decodes, the [headers] dict holds each
    header name once, with the value of the last header of that name,
    and holds no other name. *)
Theorem headers_last_value_wins
    (raw : list (bytes * bytes)) (pairs : list (str * str)) :
  mapM decode_pair raw = Some pairs →
  ∃ headers,
    decode_headers raw [] = Some headers
    ∧ NoDup headers.*1
    ∧ (∀ key, dict_get headers key = last_value pairs key)
    ∧ (∀ key, key ∈ headers.*1 ↔ key ∈ pairs.*1).
Proof.
  intros Hpairs. eexists. split; first by rewrite decode_headers_mapM, Hpairs.
  split; first by apply fold_set_NoDup, NoDup_nil.
  assert (∀ key,
    dict_get (fold_left (λ d kv, dict_set d kv.1 kv.2) pairs []) key
    = last_value pairs key) as Hget.
  { intros key. rewrite fold_set_get. by destruct (last_value pairs key). }
  split; first done.
  intros key. destruct (decide (key ∈ pairs.*1)) as [Hin|Hnin].
  - split; first done. intros _.
    destruct (decide (key ∈ (fold_left (λ d kv, dict_set d kv.1 kv.2)
                               pairs []).*1)) as [|Hno]; first done.
    apply dict_get_None in Hno. rewrite Hget in Hno.
    unfold last_value in Hno. exfalso.
    apply list_elem_of_fmap in Hin as ([k v] & -> & Hin).
    assert ((k, v) ∈ filter (λ kv : str * str, kv.1 = k) pairs) as Hf
      by by apply list_elem_of_filter.
    destruct (filter _ pairs) as [|x l] eqn:Hfl; first by apply elem_of_nil in Hf.
    clear -Hno. revert x Hno. induction l as [|y l IH]; intros x; first done.
    rewrite last_cons_cons. apply IH.
  - split; last done. intros Hin. exfalso.
    destruct (dict_get (fold_left (λ d kv, dict_set d kv.1 kv.2) pairs []) key)
      as [v|] eqn:Hv; last by apply dict_get_None in Hv.
    rewrite Hget in Hv. unfold last_value in Hv.
    destruct (last (filter _ pairs)) as [[k v']|] eqn:Hl; last done.
    apply last_Some_elem_of in Hl as Hel.
    apply list_elem_of_filter in Hel as [Hk Hel]. cbn in Hk. subst k.
    apply Hnin. apply list_elem_of_fmap. by exists (key, v').
Qed.

Lemma split_pieces_clean sep s : Forall (λ piece, sep ∉ piece) (split sep s).
Proof.
  induction s as [|c s IH]; first by repeat constructor; intros ?%elem_of_nil.
  cbn [split]. destruct (N.eqb_spec c sep) as [->|Hne].
  - constructor; [by intros ?%elem_of_nil | done].
  - destruct (split sep s) as [|piece pieces].
    + repeat constructor. by intros ->%list_elem_of_singleton.
    + apply Forall_cons in IH as [Hp Hps]. constructor; last done.
      intros [?|?]%elem_of_cons; done.
Qed.

Lemma last_segment_clean key : 95 ∉ last_segment key.
Proof.
  unfold last_segment. pose proof (split_pieces_clean 95 key) as Hclean.
  induction Hclean as [|piece pieces Hp _ IH];
    first by intros ?%elem_of_nil.
  cbn [List.last]. by destruct pieces.
Qed.

Lemma extract_info_fold (headers info : list (str * str)) prefix seg :
  dict_get
    (fold_left
       (λ info '(key, value),
          if startswith key prefix
          then dict_set info (last_segment key) value else info)
       headers info) seg
  = match snd <$> last (filter (contributes prefix seg) headers) with
    | Some value => Some value
    | None => dict_get info seg
    end.
Proof.
  revert info. induction headers as [|[k v] headers IH]; intros info;
    first done.
  cbn [fold_left]. rewrite IH.
  destruct (startswith k prefix) eqn:Hk.
  - rewrite dict_get_set. destruct (decide (last_segment k = seg)) as [Hs|Hs].
    + rewrite filter_cons_True by done.
      destruct (filter _ headers) as [|kv rest]; first done.
      rewrite last_cons_cons.
      destruct (last (kv :: rest)) eqn:Hl; first done.
      by apply last_None in Hl.
    + rewrite filter_cons_False; first done. by intros [_ ?].
  - rewrite filter_cons_False; first done.
    intros [Hk' _]. cbn in Hk'. congruence.
Qed.

Lemma extract_info_fold_NoDup (headers info : list (str * str)) prefix :
  NoDup info.*1 →
  NoDup (fold_left
           (λ info '(key, value),
              if startswith key prefix
              then dict_set info (last_segment key) value else info)
           headers info).*1.
Proof.
  revert info. induction headers as [|[k v] headers IH]; intros info Hd;
    first done.
  cbn [fold_left]. apply IH. destruct (startswith k prefix); last done.
  by apply dict_set_NoDup.
Qed.

(** X13: [extract_info] maps each last [_]-separated segment of a
    header name that starts with the prefix to the value of the last
    such header in the dict; its keys are distinct and hold no [_];
    every key comes from such a header and every such header gives a
    key. *)
Theorem extract_info_lookup (headers : list (str * str)) (prefix : str) :
  NoDup (extract_info headers prefix).*1
  ∧ (∀ seg,
       dict_get (extract_info headers prefix) seg
       = snd <$> last (filter (contributes prefix seg) headers))
  ∧ (∀ seg, seg ∈ (extract_info headers prefix).*1 →
            (95 ∉ seg)
            ∧ ∃ key value, (key, value) ∈ headers
                           ∧ startswith key prefix = true
                           ∧ last_segment key = seg)
  ∧ (∀ key value, (key, value) ∈ headers → startswith key prefix = true →
                  last_segment key ∈ (extract_info headers prefix).*1).
Proof.
  assert (∀ seg,
            dict_get (extract_info headers prefix) seg
            = snd <$> last (filter (contributes prefix seg) headers)) as Hget.
  { intros seg. unfold extract_info. rewrite extract_info_fold.
    by destruct (snd <$> last _). }
  split; first by apply extract_info_fold_NoDup, NoDup_nil.
  split; first done. split.
  - intros seg Hin.
    destruct (dict_get (extract_info headers prefix) seg) as [v|] eqn:Hv;
      last by apply dict_get_None in Hv.
    rewrite Hget in Hv.
    destruct (last (filter _ headers)) as [[k v']|] eqn:Hl; last done.
    apply last_Some_elem_of, list_elem_of_filter in Hl as [[Hk Hs] Hel].
    cbn in Hk, Hs. subst seg. split; first apply last_segment_clean.
    by exists k, v'.
  - intros key value Hel Hk.
    destruct (decide (last_segment key ∈ (extract_info headers prefix).*1))
      as [|Hno]; first done.
    apply dict_get_None in Hno. rewrite Hget in Hno. exfalso.
    assert ((key, value) ∈ filter (contributes prefix (last_segment key)) headers)
      as Hf by by apply list_elem_of_filter.
    destruct (filter _ headers) as [|x l]; first by apply elem_of_nil in Hf.
    destruct (last (x :: l)) eqn:Hl; first done.
    by apply last_None in Hl.
Qed.

Abbreviation extract_response_json :=
  (StreamingJson.extract_response_json float_of_str int_of_str).

Lemma decoded_headers raw pairs :
  mapM decode_pair raw = Some pairs →
  ∃ headers, decode_headers raw [] = Some headers
             ∧ ∀ key, dict_get headers key = last_value pairs key.
Proof.
  intros Hpairs. eexists. split; first by rewrite decode_headers_mapM, Hpairs.
  intros key. rewrite fold_set_get. by destruct (last_value pairs key).
Qed.

(** X14: when the method returns, the name is the value of the last
    [name] header or the empty string; timeout, total size and header
    size are the parse of the last header of their name, or 0 without
    any parse when there is none; roles, messages and completion are
    the envelope's. *)
Theorem extract_response_json_values
    (self : StreamingNb.StreamPrompting) (response : ClientResponse)
    (pairs : list (str * str)) (json : ResponseJson) :
  mapM decode_pair (_raw_headers response) = Some pairs →
  extract_response_json self response = inr json →
  name json = (match last_value pairs (lit "name") with
               | Some value => value
               | None => lit ""
               end)
  ∧ parsed_header float_of_str 0%float pairs (lit "timeout")
    = Some (timeout json)
  ∧ parsed_header int_of_str 0%Z pairs (lit "total_size")
    = Some (total_size json)
  ∧ parsed_header int_of_str 0%Z pairs (lit "header_size")
    = Some (header_size json)
  ∧ roles json = StreamingNb.roles self
  ∧ messages json = StreamingNb.messages self
  ∧ completion json = StreamingNb.completion self.
Proof.
  intros (headers & Hh & Hget)%decoded_headers.
  unfold StreamingJson.extract_response_json, float_header, int_header,
    parsed_header.
  rewrite Hh, !Hget.
  destruct (last_value pairs (lit "timeout")) as [t|];
    [destruct (float_of_str t) as [tv|]; last done|];
  (destruct (last_value pairs (lit "total_size")) as [ts|];
    [destruct (int_of_str ts) as [tsv|]; last done|]);
  (destruct (last_value pairs (lit "header_size")) as [hs|];
    [destruct (int_of_str hs) as [hsv|]; last done|]);
  by intros [= <-].
Qed.

(** X15: the method raises [UnicodeDecodeError] exactly when some raw
    header name or value is not UTF-8, whatever the numeric headers
    hold; with all headers decoded it raises [ValueError] exactly when
    the last [timeout], [total_size] or [header_size] header does not
    parse; it raises nothing else. *)
Theorem extract_response_json_raises
    (self : StreamingNb.StreamPrompting) (response : ClientResponse) :
  (extract_response_json self response = inl (Raised UnicodeDecodeError)
   ↔ ∃ kv, kv ∈ _raw_headers response ∧ decode_pair kv = None)
  ∧ (∀ pairs,
       mapM decode_pair (_raw_headers response) = Some pairs →
       (extract_response_json self response = inl ValueError
        ↔ parsed_header float_of_str 0%float pairs (lit "timeout") = None
          ∨ parsed_header int_of_str 0%Z pairs (lit "total_size") = None
          ∨ parsed_header int_of_str 0%Z pairs (lit "header_size") = None))
  ∧ (∀ e, extract_response_json self response = inl (Raised e) →
          e = UnicodeDecodeError).
Proof.
  split; [|split].
  - unfold StreamingJson.extract_response_json.
    rewrite decode_headers_mapM.
    destruct (mapM decode_pair (_raw_headers response)) as [pairs|] eqn:Hm.
    + split.
      * cbn. by repeat case_match.
      * intros (kv & Hin & Hkv). exfalso.
        apply mapM_Some in Hm.
        apply list_elem_of_lookup in Hin as [i Hi].
        destruct (Forall2_lookup_l _ _ _ _ _ Hm Hi) as (y & _ & Hy).
        congruence.
    + split; last done. intros _.
      destruct (decide (Exists (λ kv, decode_pair kv = None)
                          (_raw_headers response))) as [Hex|Hall].
      * apply Exists_exists in Hex as (kv & Hin & Hkv). by exists kv.
      * apply not_Exists_Forall in Hall; last (intros kv; apply _).
        assert (is_Some (mapM decode_pair (_raw_headers response))) as [? ?].
        { apply mapM_is_Some. eapply Forall_impl; first exact Hall.
          intros kv Hkv. cbn in Hkv |- *.
          destruct (decode_pair kv); [by eexists | done]. }
        congruence.
  - intros pairs (headers & Hh & Hget)%decoded_headers.
    unfold StreamingJson.extract_response_json, float_header, int_header,
      parsed_header.
    rewrite Hh, !Hget.
    destruct (last_value pairs (lit "timeout")) as [t|];
      [destruct (float_of_str t) as [tv|]|];
    (destruct (last_value pairs (lit "total_size")) as [ts|];
      [destruct (int_of_str ts) as [tsv|]|]);
    (destruct (last_value pairs (lit "header_size")) as [hs|];
      [destruct (int_of_str hs) as [hsv|]|]);
    (split; intros H;
     [first [done | by left | by right; left | by right; right]
     |first [done | by destruct H as [?|[?|?]]]]).
  - intros e. unfold StreamingJson.extract_response_json.
    repeat case_match; congruence.
Qed.

End Json.

Lemma headers_last_value_wins_witness :
  ∃ headers,
    StreamingJson.decode_headers
      [(["n"; "a"; "m"; "e"]%byte, ["x"]%byte);
       (["n"; "a"; "m"; "e"]%byte, ["y"]%byte)] [] = Some headers
    ∧ NoDup headers.*1
    ∧ (∀ key, StreamingJson.dict_get headers key
              = last_value [(lit "name", lit "x"); (lit "name", lit "y")] key)
    ∧ (∀ key, key ∈ headers.*1
              ↔ key ∈ [(lit "name", lit "x"); (lit "name", lit "y")].*1).
Proof.
  exact (headers_last_value_wins
           [(["n"; "a"; "m"; "e"]%byte, ["x"]%byte);
            (["n"; "a"; "m"; "e"]%byte, ["y"]%byte)]
           [(lit "name", lit "x"); (lit "name", lit "y")] eq_refl).
Defined.

Lemma extract_response_json_values_witness :
  lit "y" = lit "y"
  ∧ parsed_header (@no_parse float) 0%float
      [(lit "name", lit "x"); (lit "name", lit "y")] (lit "timeout")
    = Some 0%float
  ∧ parsed_header (@no_parse Z) 0%Z
      [(lit "name", lit "x"); (lit "name", lit "y")] (lit "total_size")
    = Some 0%Z
  ∧ parsed_header (@no_parse Z) 0%Z
      [(lit "name", lit "x"); (lit "name", lit "y")] (lit "header_size")
    = Some 0%Z
  ∧ [lit "user"] = [lit "user"]
  ∧ [lit "hi"] = [lit "hi"]
  ∧ Some (lit "") = Some (lit "").
Proof.
  exact (extract_response_json_values no_parse no_parse
           (fresh [lit "user"] [lit "hi"])
           {| StreamingJson._raw_headers :=
                [(["n"; "a"; "m"; "e"]%byte, ["x"]%byte);
                 (["n"; "a"; "m"; "e"]%byte, ["y"]%byte)] |}
           [(lit "name", lit "x"); (lit "name", lit "y")]
           {| StreamingJson.name := lit "y";
              StreamingJson.timeout := 0%float;
              StreamingJson.total_size := 0%Z;
              StreamingJson.header_size := 0%Z;
              StreamingJson.dendrite := [];
              StreamingJson.axon := [];
              StreamingJson.roles := [lit "user"];
              StreamingJson.messages := [lit "hi"];
              StreamingJson.completion := Some (lit "") |}
           eq_refl eq_refl).
Defined.
